(** * SigmaGo: the MCTS engine of [main.py], embedded and verified

    The Python program builds a search tree of mutable [Node] objects that
    point at each other ([parent], [children]) and at a game-state object
    ([state]).  The embedding keeps that shape:

    - the objects live in a heap, a list of node records addressed by their
      position (the identity of the Python object); the root is node [0] and
      a node made by [_expand] gets the next free position;
    - every function of the engine takes the heap and returns the heap it
      leaves behind, so in-place updates ([node.visits += 1],
      [node.children.append], a rollout playing moves on [node.state]) are
      updates of the heap;
    - a call that can raise returns in the [res] monad, and the [while]
      loops take fuel: [search] gives [_select] and [_backpropagate] the
      size of the heap, which is enough on a tree ([select_fuel],
      [backpropagate_fuel]); the fuel of a rollout is a parameter;
    - the game state is duck-typed in the source: the engine is written
      against the operations it calls on [self.game] and on [node.state]
      (class [GameOps]), and the bundled [GoGame] is one instance;
    - numpy's floating point is an interface too (class [FloatArith]), with
      binary64 as the instance used for closed computations.

    The bundled [GoGame] cannot be rolled out (its terminal test takes an
    argument that [random_policy] does not pass), so completed searches are
    run on [GoState], the same game with the two methods taking no
    argument. *)

From Stdlib Require Import ZArith Lia Floats Uint63.
From stdpp Require Import base list sets relations.

Set Default Proof Using "Type".
Local Open Scope nat_scope.

(** ** Results of Python calls *)

(** The exceptions the program can raise, and the two failure conditions the
    specification names for [search] (no statement of the source raises
    those two).  [DanglingNode] is not a Python exception: it is what a heap
    access returns for a position outside the heap, which a well-formed heap
    never contains. *)
Inductive exn : Set :=
| TypeError
| ValueError
| IndexError
| ZeroDivisionError
| AttributeError
| InvalidStartState
| InvalidConfiguration
| DanglingNode.

(** [OutOfFuel]: the fuel of a [while] loop ran out (the loop would go on). *)
Inductive res (A : Type) : Type :=
| Ok (a : A)
| Raise (e : exn)
| OutOfFuel.
Arguments Ok {A} a.
Arguments Raise {A} e.
Arguments OutOfFuel {A}.

Definition bind {A B} (m : res A) (k : A -> res B) : res B :=
  match m with
  | Ok a => k a
  | Raise e => Raise e
  | OutOfFuel => OutOfFuel
  end.

Notation "'let*' x ':=' e 'in' k" := (bind e (fun x => k))
  (at level 10, x pattern, e at level 100, k at level 200).

Definition is_Ok {A} (m : res A) : bool :=
  match m with Ok _ => true | _ => false end.

(** [[f(x) for x in l]], left to right, stopping at the first exception. *)
Fixpoint mapM {A B} (f : A -> res B) (l : list A) : res (list B) :=
  match l with
  | [] => Ok []
  | x :: l' => let* y := f x in let* ys := mapM f l' in Ok (y :: ys)
  end.

(** ** numpy floating point *)

(** The float operations [ucb1] and [best_child] use.  [fle] is [<=] on
    floats (false when either side is NaN) and [fisnan] is [np.isnan]. *)
Class FloatArith (F : Type) := {
  of_int : nat -> F;
  fadd : F -> F -> F;
  fmul : F -> F -> F;
  fdiv : F -> F -> F;
  np_sqrt : F -> F;
  np_log : F -> F;
  fle : F -> F -> bool;
  fisnan : F -> bool;
  (** the literal [1.41], default of [exploration_weight] *)
  weight_default : F
}.

(** [np.argmax] over a non-empty sequence of floats: the running maximum
    [mx] found at position [idx]; position [i] holds the head of [l].  A
    later element replaces the maximum only when it is not [<=] it, and a
    NaN ends the scan. *)
Fixpoint argmax_from {F} `{FloatArith F} (mx : F) (idx i : nat) (l : list F) : nat :=
  match l with
  | [] => idx
  | x :: l' =>
      if fle x mx then argmax_from mx idx (S i) l'
      else if fisnan x then i
      else argmax_from x i (S i) l'
  end.

(** [np.argmax(l)]: [ValueError] on an empty sequence. *)
Definition np_argmax {F} `{FloatArith F} (l : list F) : res nat :=
  match l with
  | [] => Raise ValueError
  | x :: l' => Ok (if fisnan x then 0 else argmax_from x 0 1 l')
  end.

(** ** The operations the engine calls on the game and on a state *)

(** [gs_is_terminal] is [state.is_terminal()] and [gs_get_result] is
    [state.get_result()], both called with no argument by [random_policy];
    [game_is_terminal] is [self.game.is_terminal(node.state)], called with
    one argument by [search] and [_select].  [move_eq_state m s] is the
    comparison [m == s] that [_expand]'s membership test performs between a
    move and a child's state. *)
Class GameOps (State Move Player : Type) := {
  gs_get_legal_moves : State -> res (list Move);
  gs_play : State -> Move -> res State;
  gs_is_terminal : State -> res bool;
  gs_get_result : State -> res Player;
  gs_current_player : State -> Player;
  game_is_terminal : State -> res bool;
  move_eq_state : Move -> State -> bool;
  player_eqb : Player -> Player -> bool
}.

(** ** The random source *)

(** [random.choice] draws from the interpreter's global generator.  Here
    the generator is an infinite tape of draws with a read position. *)
Record Rng := mkRng { tape : nat -> nat; pos : nat }.

(** [random.choice(l)]: [IndexError] on an empty list. *)
Definition random_choice {A} (g : Rng) (l : list A) : res (A * Rng) :=
  match l with
  | [] => Raise IndexError
  | _ :: _ =>
      match l !! (tape g (pos g) mod length l) with
      | Some x => Ok (x, mkRng (tape g) (S (pos g)))
      | None => Raise IndexError
      end
  end.

(** ** Tree nodes *)

(** [class Node]: the fields of [__init__].  [parent] and [children] hold
    heap positions. *)
Record Node (State : Type) := mkNode {
  state : State;
  parent : option nat;
  children : list nat;
  wins : nat;
  visits : nat
}.
Arguments mkNode {State}.
Arguments state {State}.
Arguments parent {State}.
Arguments children {State}.
Arguments wins {State}.
Arguments visits {State}.

(** [Node(state, parent)] *)
Definition Node_init {State} (s : State) (p : option nat) : Node State :=
  mkNode s p [] 0 0.

Definition set_state {State} (s : State) (nd : Node State) : Node State :=
  mkNode s (parent nd) (children nd) (wins nd) (visits nd).

Definition add_child {State} (c : nat) (nd : Node State) : Node State :=
  mkNode (state nd) (parent nd) (children nd ++ [c]) (wins nd) (visits nd).

Section Engine.
Context {State Move Player F : Type}.
Context `{G : GameOps State Move Player} `{FO : FloatArith F}.

Local Abbreviation heap := (list (Node State)).

(** Reading the object at position [n]. *)
Definition get (h : heap) (n : nat) : res (Node State) :=
  match h !! n with
  | Some nd => Ok nd
  | None => Raise DanglingNode
  end.

(** [ucb1(node, exploration_weight)].  [node.wins / node.visits] divides
    two Python ints and raises on a zero divisor; it is evaluated before
    [node.parent.visits], which raises [AttributeError] when [parent] is
    [None].  The remaining operations are numpy's and do not raise. *)
Definition ucb1_value (w : F) (cwins cvisits pvisits : nat) : F :=
  fadd (fdiv (of_int cwins) (of_int cvisits))
       (fmul w (np_sqrt (fdiv (np_log (of_int pvisits)) (of_int cvisits)))).

Definition ucb1 (h : heap) (node : nat) (exploration_weight : F) : res F :=
  let* nd := get h node in
  if visits nd =? 0 then Raise ZeroDivisionError
  else
    match parent nd with
    | None => Raise AttributeError
    | Some p =>
        let* pn := get h p in
        Ok (ucb1_value exploration_weight (wins nd) (visits nd) (visits pn))
    end.

(** [Node.is_fully_expanded] *)
Definition is_fully_expanded (h : heap) (node : nat) : res bool :=
  let* nd := get h node in
  let* legal_moves := gs_get_legal_moves (state nd) in
  Ok (length (children nd) =? length legal_moves).

(** [Node.best_child] *)
Definition best_child (h : heap) (node : nat) (exploration_weight : F) : res nat :=
  let* nd := get h node in
  let* choices_weights := mapM (fun child => ucb1 h child exploration_weight) (children nd) in
  let* i := np_argmax choices_weights in
  match children nd !! i with
  | Some c => Ok c
  | None => Raise IndexError
  end.

(** [random_policy(state)].  The loop plays on the object it was handed:
    the state returned is that same object after the moves. *)
Fixpoint random_policy (fuel : nat) (g : Rng) (s : State) : res (State * Rng * Player) :=
  let* t := gs_is_terminal s in
  if t then
    let* r := gs_get_result s in Ok (s, g, r)
  else
    match fuel with
    | 0 => OutOfFuel
    | S fuel' =>
        let* legal_moves := gs_get_legal_moves s in
        let* (move, g') := random_choice g legal_moves in
        let* s' := gs_play s move in
        random_policy fuel' g' s'
    end.

(** [MCTS._select]: the condition of the [while] is evaluated left to
    right, so [is_fully_expanded] is not called on a terminal node. *)
Fixpoint _select (fuel : nat) (h : heap) (node : nat) : res nat :=
  let* nd := get h node in
  let* t := game_is_terminal (state nd) in
  if t then Ok node
  else
    let* fe := is_fully_expanded h node in
    if fe then
      match fuel with
      | 0 => OutOfFuel
      | S fuel' =>
          let* c := best_child h node weight_default in
          _select fuel' h c
      end
    else Ok node.

(** [move not in [child.state for child in node.children]] *)
Definition move_not_in (move : Move) (child_states : list State) : bool :=
  negb (existsb (move_eq_state move) child_states).

(** [MCTS._expand].  The new node holds [copy.deepcopy(node.state)] after
    [play(move)]: an object of its own, so a value of its own here. *)
Definition _expand (h : heap) (node : nat) : res (heap * nat) :=
  let* nd := get h node in
  let* legal_moves := gs_get_legal_moves (state nd) in
  let* child_states := mapM (fun c => let* cn := get h c in Ok (state cn)) (children nd) in
  match find (fun move => move_not_in move child_states) legal_moves with
  | Some move =>
      let* new_state := gs_play (state nd) move in
      let new_node := length h in
      Ok (<[node := add_child new_node nd]> (h ++ [Node_init new_state (Some node)]), new_node)
  | None => Ok (h, node)
  end.

(** One turn of the [while] of [_backpropagate]. *)
Definition bump (result : Player) (nd : Node State) : Node State :=
  mkNode (state nd) (parent nd) (children nd)
         (if player_eqb (gs_current_player (state nd)) result then wins nd + 1 else wins nd)
         (visits nd + 1).

Definition backprop_step (h : heap) (node : nat) (result : Player) : res (heap * option nat) :=
  let* nd := get h node in
  Ok (<[node := bump result nd]> h, parent nd).

(** [MCTS._backpropagate] *)
Fixpoint _backpropagate (fuel : nat) (h : heap) (node : option nat) (result : Player) : res heap :=
  match node with
  | None => Ok h
  | Some n =>
      match fuel with
      | 0 => OutOfFuel
      | S fuel' =>
          let* (h', next) := backprop_step h n result in
          _backpropagate fuel' h' next result
      end
  end.

(** The body of the [for] loop of [search], from the root at position
    [0].  [random_policy(node.state)] receives the node's own state
    object, so the state the rollout ends in is the node's state
    afterwards.  Besides the heap and the generator, the node the
    backpropagation started from is returned. *)
Definition iteration (fuel : nat) (g : Rng) (h : heap) : res (heap * Rng * nat) :=
  let* node := _select (length h) h 0 in
  let* nd := get h node in
  let* t := game_is_terminal (state nd) in
  let* (h1, node1) := (if negb t then _expand h node else Ok (h, node)) in
  let* nd1 := get h1 node1 in
  let* (s', g', result) := random_policy fuel g (state nd1) in
  let h2 := <[node1 := set_state s' nd1]> h1 in
  let* h3 := _backpropagate (length h2) h2 (Some node1) result in
  Ok (h3, g', node1).

(** [for _ in range(n)]: the heap, the generator and the start nodes of
    the backpropagations, oldest first. *)
Fixpoint iterations (n : nat) (fuel : nat) (g : Rng) (h : heap) : res (heap * Rng * list nat) :=
  match n with
  | 0 => Ok (h, g, [])
  | S n' =>
      let* (h1, g1, node) := iteration fuel g h in
      let* (h2, g2, nodes) := iterations n' fuel g1 h1 in
      Ok (h2, g2, node :: nodes)
  end.

(** [root = Node(initial_state)] *)
Definition initial_heap (initial_state : State) : heap := [Node_init initial_state None].

(** [MCTS.search]: [range(n_simulations)] is empty for [n_simulations <= 0].
    The result is the position of the chosen child and the final heap. *)
Definition search (fuel : nat) (g : Rng) (n_simulations : Z) (initial_state : State)
  : res (nat * heap) :=
  let* (h, _, _) := iterations (Z.to_nat n_simulations) fuel g (initial_heap initial_state) in
  let* best := best_child h 0 (of_int 0) in
  Ok (best, h).

End Engine.

(** ** Method calls and their arity *)

(** A method as its class defines it: [def m(self)] or [def m(self, arg)].
    Calling it through an object supplies [self]; a call with the wrong
    number of further arguments raises [TypeError] before the body runs. *)
Inductive pymethod (Self Arg R : Type) : Type :=
| def_self (body : Self -> res R)
| def_self_arg (body : Self -> Arg -> res R).
Arguments def_self {Self Arg R} body.
Arguments def_self_arg {Self Arg R} body.

(** [obj.m()] *)
Definition call0 {Self Arg R} (m : pymethod Self Arg R) (obj : Self) : res R :=
  match m with
  | def_self body => body obj
  | def_self_arg _ => Raise TypeError
  end.

(** [obj.m(a)] *)
Definition call1 {Self Arg R} (m : pymethod Self Arg R) (obj : Self) (a : Arg) : res R :=
  match m with
  | def_self _ => Raise TypeError
  | def_self_arg body => body obj a
  end.

(** ** The bundled game *)

Module GoGame.

(** The fields of [GoGame.__init__].  The board is a numpy array of
    floats holding only 0.0, 1.0 and 2.0; it is kept as rows of integers. *)
Record t := mk {
  board_size : nat;
  board : list (list Z);
  current_player : Z
}.

(** [GoGame(board_size)] *)
Definition init (board_size : nat) : t :=
  mk board_size (replicate board_size (replicate board_size 0%Z)) 1%Z.

(** [self.board[x][y]] *)
Definition cell (b : list (list Z)) (x y : nat) : res Z :=
  match b !! x with
  | Some row =>
      match row !! y with
      | Some v => Ok v
      | None => Raise IndexError
      end
  | None => Raise IndexError
  end.

Definition get_legal_moves (self : t) : res (list (nat * nat)) :=
  let* rows :=
    mapM (fun x =>
            let* cells :=
              mapM (fun y =>
                      let* v := cell (board self) x y in
                      Ok (if (v =? 0)%Z then [(x, y)] else []))
                   (seq 0 (board_size self)) in
            Ok (concat cells))
         (seq 0 (board_size self)) in
  Ok (concat rows).

(** [play(move)] on the moves the engine passes, which come from
    [get_legal_moves] and have coordinates in [range(board_size)].  For
    negative coordinates, which numpy counts from the far edge, see
    [go_play_int]. *)
Definition play (self : t) (move : nat * nat) : res t :=
  let '(x, y) := move in
  match board self !! x with
  | Some row =>
      if decide (y < length row) then
        Ok (mk (board_size self)
               (<[x := <[y := current_player self]> row]> (board self))
               (3 - current_player self)%Z)
      else Raise IndexError
  | None => Raise IndexError
  end.

(** [np.sum(state.board)] *)
Definition board_sum (b : list (list Z)) : Z :=
  foldr Z.add 0%Z (concat b).

(** [def is_terminal(self, state)] *)
Definition is_terminal : pymethod t t bool :=
  def_self_arg (fun self state =>
                  let* legal_moves := get_legal_moves state in
                  Ok (length legal_moves =? 0)).

(** [def get_result(self, state)] *)
Definition get_result : pymethod t t Z :=
  def_self_arg (fun self state =>
                  Ok (if (0 <? board_sum (board state))%Z then 1%Z else 2%Z)).

(** The engine run as the script runs it: [game] is the [GoGame] object
    given to [MCTS], and the states are [GoGame] objects too.  A move is a
    tuple and a state is a [GoGame], which defines no [__eq__]: the two
    never compare equal. *)
Definition ops (game : t) : GameOps t (nat * nat) Z := {|
  gs_get_legal_moves := get_legal_moves;
  gs_play := play;
  gs_is_terminal s := call0 is_terminal s;
  gs_get_result s := call0 get_result s;
  gs_current_player := current_player;
  game_is_terminal s := call1 is_terminal game s;
  move_eq_state _ _ := false;
  player_eqb := Z.eqb
|}.

(** The other player, as [play] computes it. *)
Definition opponent (p : Z) : Z := (3 - p)%Z.

End GoGame.

(** ** A state class that fits the calls of [random_policy] *)

(** [GoGame]'s data and moves, with the terminal test and the result taking
    no argument, as [random_policy] calls them; the game object handed to
    [MCTS] stays a [GoGame].  This class is not in the repository: it is the
    bundled game changed just enough for a rollout to run, and serves to run
    the engine on closed inputs. *)
Module GoState.

(** [def is_terminal(self)] *)
Definition is_terminal : pymethod GoGame.t GoGame.t bool :=
  def_self (fun self =>
              let* legal_moves := GoGame.get_legal_moves self in
              Ok (length legal_moves =? 0)).

(** [def get_result(self)] *)
Definition get_result : pymethod GoGame.t GoGame.t Z :=
  def_self (fun self =>
              Ok (if (0 <? GoGame.board_sum (GoGame.board self))%Z then 1%Z else 2%Z)).

Definition ops (game : GoGame.t) : GameOps GoGame.t (nat * nat) Z := {|
  gs_get_legal_moves := GoGame.get_legal_moves;
  gs_play := GoGame.play;
  gs_is_terminal s := call0 is_terminal s;
  gs_get_result s := call0 get_result s;
  gs_current_player := GoGame.current_player;
  game_is_terminal s := call1 GoGame.is_terminal game s;
  move_eq_state _ _ := false;
  player_eqb := Z.eqb
|}.

End GoState.

(** ** binary64 *)

(** Python's and numpy's floats.  Sum, product, quotient and square root
    are the IEEE operations.  [of_nat] is the conversion of a count to a
    float: it is exact up to [2^53], which is where [wins / visits] on two
    Python ints and the quotient of the two conversions part ways, and it
    wraps at [2^63]; the counts of a search stay far below.  [np.log] is a
    library routine outside the repository; [log] below stands for it in
    closed computations: it reduces the argument to [[1/sqrt 2, sqrt 2)] and
    sums the series of [2 atanh z], which gives [0] at [1] and elsewhere a
    value that can differ from numpy's in the last bit (it does at [3]).
    The theorems about the engine are proved for any [FloatArith] and do
    not depend on this instance; it only evaluates closed examples. *)
Module Binary64.

Definition of_nat (n : nat) : float :=
  PrimFloat.of_uint63 (Uint63.of_Z (Z.of_nat n)).

Definition of_Z (z : Z) : float :=
  if (z <? 0)%Z then PrimFloat.opp (PrimFloat.of_uint63 (Uint63.of_Z (- z)))
  else PrimFloat.of_uint63 (Uint63.of_Z z).

Definition ln2 : float := 0x1.62e42fefa39efp-1%float.

(** [1/d + z2/(d+2) + z2^2/(d+4) + ...], [n] terms, by Horner's rule. *)
Fixpoint atanh_poly (n d : nat) (z2 : float) : float :=
  match n with
  | 0 => 0%float
  | S n' =>
      PrimFloat.add (PrimFloat.div 1%float (of_nat d))
                    (PrimFloat.mul z2 (atanh_poly n' (d + 2) z2))
  end.

Definition log (x : float) : float :=
  if PrimFloat.is_nan x then x
  else if PrimFloat.ltb x 0%float then nan
  else if PrimFloat.eqb x 0%float then neg_infinity
  else if PrimFloat.is_infinity x then x
  else
    let '(m, e) := PrimFloat.frshiftexp x in
    let k := (Uint63.to_Z e - FloatOps.shift)%Z in
    let '(m, k) :=
      if PrimFloat.ltb m 0x1.6a09e667f3bcdp-1%float
      then (PrimFloat.mul 2%float m, (k - 1)%Z)
      else (m, k) in
    let z := PrimFloat.div (PrimFloat.sub m 1%float) (PrimFloat.add m 1%float) in
    PrimFloat.add
      (PrimFloat.mul (PrimFloat.mul 2%float z) (atanh_poly 16 1 (PrimFloat.mul z z)))
      (PrimFloat.mul (of_Z k) ln2).

Definition ops : FloatArith float := {|
  of_int := of_nat;
  fadd := PrimFloat.add;
  fmul := PrimFloat.mul;
  fdiv := PrimFloat.div;
  np_sqrt := PrimFloat.sqrt;
  np_log := log;
  fle := PrimFloat.leb;
  fisnan := PrimFloat.is_nan;
  weight_default := 0x1.68f5c28f5c28fp+0%float
|}.

End Binary64.

(** * The vocabulary of the theorems *)

Section TreeInvariants.
Context {State : Type}.

Local Abbreviation heap := (list (Node State)).
Implicit Types (h : heap) (nd : Node State) (tr : list nat).

(** ** The sum of the visit counts of a list of nodes *)

Definition visits_at h (c : nat) : nat := from_option visits 0 (h !! c).

Definition sum_visits h (cs : list nat) : nat := sum_list_with (visits_at h) cs.

(** ** Well-formed heaps *)

(** The links of the heap form a tree rooted at position [0]: a parent
    sits below its children in the heap and lists them, only the root has
    no parent, and no node is listed twice. *)
Record wf h : Prop := {
  wf_root : exists r, h !! 0 = Some r /\ parent r = None;
  wf_parent : forall i nd p, h !! i = Some nd -> parent nd = Some p ->
      p < i /\ exists pn, h !! p = Some pn /\ i ∈ children pn;
  wf_orphan : forall i nd, h !! i = Some nd -> parent nd = None -> i = 0;
  wf_child : forall i nd c, h !! i = Some nd -> c ∈ children nd ->
      exists cn, h !! c = Some cn /\ parent cn = Some i;
  wf_nodup : forall i nd, h !! i = Some nd -> NoDup (children nd)
}.

(** ** The accounting invariant *)

(** [starts tr i]: how many backpropagations of the trace started at [i]. *)
Definition starts tr (i : nat) : nat := count_occ Nat.eq_dec tr i.

(** While a backpropagation is under way, [next] is the node it is about
    to update; that node is one visit short. *)
Definition pend (next : option nat) (i : nat) : nat :=
  if decide (next = Some i) then 1 else 0.

(** [inv tr h next]: the heap [h] after the backpropagations of [tr], the
    last of them having still to update [next] and its ancestors ([None]:
    all of them are complete). *)
Record inv tr h (next : option nat) : Prop := {
  inv_wf : wf h;
  inv_sum : forall i nd, h !! i = Some nd ->
      visits nd + pend next i = sum_visits h (children nd) + starts tr i;
  inv_root : forall r, h !! 0 = Some r ->
      visits r + match next with Some _ => 1 | None => 0 end = length tr;
  inv_pos : forall i nd, h !! i = Some nd -> 0 < i -> 1 <= visits nd + pend next i;
  inv_size : length h <= S (length tr);
  inv_trace : forall i, i ∈ tr -> i < length h;
  inv_next : forall n, next = Some n -> n < length h
}.

End TreeInvariants.

Section Scores.
Context {State F : Type} `{FO : FloatArith F}.

Local Abbreviation heap := (list (Node State)).
Implicit Types (h : heap) (nd : Node State).

(** ** Ordered scores *)

(** The floats of [l] are ordered by [<=]: none is NaN, any two compare,
    and the comparison is transitive. *)
Record float_ordered (l : list F) : Prop := {
  fo_nan : forall x, x ∈ l -> fisnan x = false;
  fo_total : forall x y, x ∈ l -> y ∈ l -> fle x y = true \/ fle y x = true;
  fo_trans : forall x y z, x ∈ l -> y ∈ l -> z ∈ l ->
      fle x y = true -> fle y z = true -> fle x z = true
}.

(** [m] at position [r] is the first maximum of [l]. *)
Definition first_max (l : list F) (r : nat) (m : F) : Prop :=
  l !! r = Some m /\
  (forall j x, l !! j = Some x -> fle x m = true) /\
  (forall j x, j < r -> l !! j = Some x -> fle m x = false).

(** The score of child [c] of the node [nd]: the UCB1 formula
    [wins/visits + w * sqrt(log(parent visits) / visits)]. *)
Definition score h (w : F) nd (c : nat) : F :=
  ucb1_value w (from_option wins 0 (h !! c)) (visits_at h c) (visits nd).

End Scores.

(** ** Closed inputs *)

(** A generator whose [k]-th draw is [k]. *)
Definition rng0 : Rng := mkRng (fun k => k) 0.

(** Boards of side 1 and 2 at the start of a game, the 1 x 1 board after
    its only move, and the 2 x 2 board after the move [(0, 0)]. *)
Definition go1 : GoGame.t := GoGame.init 1.
Definition go2 : GoGame.t := GoGame.init 2.
Definition go1_full : GoGame.t := GoGame.mk 1 [[1%Z]] 2%Z.
Definition go2_first : GoGame.t := GoGame.mk 2 [[1%Z; 0%Z]; [0%Z; 0%Z]] 2%Z.

(** [_expand] called [n] times on the root. *)
Fixpoint expand_root {State Move Player} `{GameOps State Move Player}
    (n : nat) (h : list (Node State)) : res (list (Node State)) :=
  match n with
  | 0 => Ok h
  | S n' => let* (h', _) := _expand h 0 in expand_root n' h'
  end.

(** [[child.state for child in node.children]] *)
Definition child_states {State} (h : list (Node State)) (node : nat) : list (option State) :=
  match h !! node with
  | Some nd => (fun c => state <$> h !! c) <$> children nd
  | None => []
  end.

(** The root of the 2 x 2 board after one expansion: a child that was not
    visited yet. *)
Definition unvisited_heap : list (Node GoGame.t) :=
  [mkNode go2 None [1] 0 0; mkNode go2_first (Some 0) [] 0 0].

(** A root with three visits and two visited children. *)
Definition scored_root : Node GoGame.t := mkNode go2 None [1; 2] 1 3.

Definition scored_heap : list (Node GoGame.t) :=
  [scored_root;
   mkNode go2_first (Some 0) [] 0 1;
   mkNode go2_first (Some 0) [] 2 2].

(** ** The walk of a backpropagation *)

(** The nodes [_backpropagate] visits from [n]: [n], its parent, and so on
    up the [parent] links, at most [fuel] of them. *)
Fixpoint ancestors {State} (fuel : nat) (h : list (Node State)) (n : nat) : list nat :=
  match fuel with
  | 0 => []
  | S fuel' =>
      match h !! n with
      | None => []
      | Some nd =>
          n :: match parent nd with
               | None => []
               | Some p => ancestors fuel' h p
               end
      end
  end.

(** ** Trees of depth one *)

(** Every node other than the root is a child of the root, has no child of
    its own and holds a state that is terminal by its own test. *)
Definition flat_tree {State Move Player} `{GameOps State Move Player}
    (h : list (Node State)) : Prop :=
  forall i nd, h !! i = Some nd -> 0 < i ->
    parent nd = Some 0 /\ children nd = [] /\ gs_is_terminal (state nd) = Ok true.

(** ** The board of the bundled game *)

(** A board of side [board_size]: that many rows of that many cells. *)
Definition go_wf (s : GoGame.t) : Prop :=
  length (GoGame.board s) = GoGame.board_size s /\
  Forall (fun row => length row = GoGame.board_size s) (GoGame.board s).

(** The content of the cell [p], when the board has one there. *)
Definition go_at (s : GoGame.t) (p : nat * nat) : option Z :=
  GoGame.board s !! p.1 ≫= fun row => row !! p.2.

(** The cell [p] is on the board and holds no stone. *)
Definition go_empty (s : GoGame.t) (p : nat * nat) : Prop := go_at s p = Some 0%Z.

#[global] Instance go_empty_dec s p : Decision (go_empty s p).
Proof. unfold go_empty. apply _. Defined.

(** The cells of a board of side [n], row by row. *)
Definition go_cells (n : nat) : list (nat * nat) :=
  x ← seq 0 n; y ← seq 0 n; [(x, y)].

(** The number of empty cells of a board. *)
Definition go_empty_count (s : GoGame.t) : nat :=
  length (filter (go_empty s) (go_cells (GoGame.board_size s))).

(** The positions a game can be in: a fresh board, and what [play] makes of
    a position. *)
Inductive go_reachable : GoGame.t -> Prop :=
| go_reach_init n : go_reachable (GoGame.init n)
| go_reach_play s m s' :
    go_reachable s -> GoGame.play s m = Ok s' -> go_reachable s'.

(** ** [play] on any pair of Python ints *)




(** ** The moves of a rollout *)

Section Rollouts.
Context {State Move Player : Type} `{G : GameOps State Move Player}.

(** [rollout_path g s moves g' s']: the [while] of [random_policy], started
    on the state [s] with the generator at [g], turns [length moves] times
    and leaves the state [s'] and the generator [g'].  Each turn finds the
    state not terminal, asks it for its legal moves, takes the one the next
    draw of the generator selects, and plays it. *)
Inductive rollout_path : Rng -> State -> list Move -> Rng -> State -> Prop :=
| rollout_stop g s : rollout_path g s [] g s
| rollout_move g s legal_moves move s1 moves g' s' :
    gs_is_terminal s = Ok false ->
    gs_get_legal_moves s = Ok legal_moves ->
    legal_moves !! (tape g (pos g) mod length legal_moves) = Some move ->
    gs_play s move = Ok s1 ->
    rollout_path (mkRng (tape g) (S (pos g))) s1 moves g' s' ->
    rollout_path g s (move :: moves) g' s'.

End Rollouts.

(** ** The points of a search *)

Section SearchPoints.
Context {State Move Player F : Type}.
Context `{G : GameOps State Move Player} `{FO : FloatArith F}.

(** Where the body of the [for] loop of [search] stands:
    - [Between]: at the top of the loop body or past its end, and all
      through [_select], which changes no object;
    - [InRollout node]: [node] is the node [_expand] returned (or the
      selected node, when it is terminal) and [random_policy] is playing on
      its state;
    - [InBackprop next result]: in [_backpropagate], before the test of the
      [while], with [next] the value of [node]. *)
Inductive phase : Type :=
| Between
| InRollout (node : nat)
| InBackprop (next : option nat) (result : Player).

(** The node a running backpropagation is about to update. *)
Definition pending (ph : phase) : option nat :=
  match ph with
  | InBackprop next _ => next
  | _ => None
  end.

(** One step of a search, from one heap to the next:
    - [step_descend]: [_select] from the root and, on a node that is not
      terminal, [_expand];
    - [step_play]: one turn of the [while] of [random_policy], which
      replaces the state of the node by the state played into (any of the
      legal moves: whatever the generator draws);
    - [step_result]: the state is terminal, [random_policy] returns;
    - [step_walk]: one turn of the [while] of [_backpropagate];
    - [step_return]: [node] is [None], [_backpropagate] returns. *)
Inductive search_step :
  list (Node State) * phase -> list (Node State) * phase -> Prop :=
| step_descend h node nd t h1 node1 :
    _select (length h) h 0 = Ok node ->
    h !! node = Some nd ->
    game_is_terminal (state nd) = Ok t ->
    (if negb t then _expand h node else Ok (h, node)) = Ok (h1, node1) ->
    search_step (h, Between) (h1, InRollout node1)
| step_play h node nd legal_moves move s1 :
    h !! node = Some nd ->
    gs_is_terminal (state nd) = Ok false ->
    gs_get_legal_moves (state nd) = Ok legal_moves ->
    move ∈ legal_moves ->
    gs_play (state nd) move = Ok s1 ->
    search_step (h, InRollout node) (<[node := set_state s1 nd]> h, InRollout node)
| step_result h node nd result :
    h !! node = Some nd ->
    gs_is_terminal (state nd) = Ok true ->
    gs_get_result (state nd) = Ok result ->
    search_step (h, InRollout node) (h, InBackprop (Some node) result)
| step_walk h n nd result :
    h !! n = Some nd ->
    search_step (h, InBackprop (Some n) result)
                (<[n := bump result nd]> h, InBackprop (parent nd) result)
| step_return h result :
    search_step (h, InBackprop None result) (h, Between).

(** The heaps a search from [initial_state] passes through, each with the
    place in the loop body where it is met. *)
Definition search_point (initial_state : State) (p : list (Node State) * phase) : Prop :=
  rtc search_step (initial_heap initial_state, Between) p.

(** What the accounting invariant says at a point: once the node of the
    coming backpropagation is known, that backpropagation counts as started
    and the node as its pending update. *)
Definition point_inv (p : list (Node State) * phase) : Prop :=
  match p.2 with
  | Between => exists tr, inv tr p.1 None
  | InRollout node => exists tr, inv (tr ++ [node]) p.1 (Some node)
  | InBackprop next _ => exists tr, inv tr p.1 next
  end.

End SearchPoints.

(** The heap of the first search on the 1 x 1 board once [_backpropagate]
    has updated the new node and not yet the root, and the heap that
    iteration leaves. *)
Definition first_walk_heap : list (Node GoGame.t) :=
  [mkNode go1 None [1] 0 0; mkNode go1_full (Some 0) [] 0 1].

Definition first_iteration_heap : list (Node GoGame.t) :=
  [mkNode go1 None [1] 1 1; mkNode go1_full (Some 0) [] 0 1].

(** * Facts about the engine, for any game and any float arithmetic *)

Section EngineFacts.
Context {State Move Player F : Type}.
Context `{G : GameOps State Move Player} `{FO : FloatArith F}.

Local Abbreviation heap := (list (Node State)).
Implicit Types (h : heap) (nd : Node State) (tr : list nat).

(** *** The monad *)

Lemma bind_Ok {A B} (m : res A) (k : A -> res B) (b : B) :
  bind m k = Ok b -> exists a, m = Ok a /\ k a = Ok b.
Proof. destruct m as [a| |]; simpl; intros E; try discriminate; eauto. Qed.

Lemma get_Ok h n nd : get h n = Ok nd <-> h !! n = Some nd.
Proof. unfold get. destruct (h !! n); split; intros E; congruence. Qed.

Lemma mapM_Ok {A B} (f : A -> res B) (g : A -> B) (l : list A) :
  (forall x, x ∈ l -> f x = Ok (g x)) -> mapM f l = Ok (g <$> l).
Proof.
  induction l as [|x l IH]; intros Hf; simpl; [done|].
  rewrite Hf by (apply elem_of_cons; by left). simpl.
  rewrite IH; [done|]. intros y Hy. apply Hf, elem_of_cons. by right.
Qed.

Lemma sum_visits_ext h h' cs :
  (forall c, c ∈ cs -> visits_at h' c = visits_at h c) ->
  sum_visits h' cs = sum_visits h cs.
Proof.
  unfold sum_visits. induction cs as [|c cs IH]; intros E; simpl; [done|].
  rewrite E by set_solver. rewrite IH; [done|]. intros; apply E; set_solver.
Qed.

Lemma sum_visits_app h cs cs' :
  sum_visits h (cs ++ cs') = sum_visits h cs + sum_visits h cs'.
Proof. unfold sum_visits. apply sum_list_with_app. Qed.

(** One node gains a visit: the sum over a duplicate-free list grows by
    one when the node is in the list and is unchanged otherwise. *)
Lemma sum_visits_one_more h h' cs (n : nat) :
  NoDup cs ->
  visits_at h' n = visits_at h n + 1 ->
  (forall c, c <> n -> visits_at h' c = visits_at h c) ->
  sum_visits h' cs = sum_visits h cs + (if decide (n ∈ cs) then 1 else 0).
Proof.
  intros ND En Eo. unfold sum_visits.
  induction cs as [|c cs IH]; simpl; [done|].
  apply NoDup_cons in ND as [Hc ND]. specialize (IH ND).
  destruct (decide (c = n)) as [->|Hne].
  - rewrite En, IH.
    destruct (decide (n ∈ cs)) as [Hin|_]; [done|].
    destruct (decide (n ∈ n :: cs)) as [_|Hout]; [lia|].
    exfalso. apply Hout, elem_of_cons. by left.
  - rewrite (Eo c Hne), IH.
    destruct (decide (n ∈ cs)) as [Hin|Hin];
      destruct (decide (n ∈ c :: cs)) as [Hin'|Hin']; try lia.
    + exfalso. apply Hin', elem_of_cons. by right.
    + exfalso. apply elem_of_cons in Hin' as [->|Hin']; done.
Qed.


Lemma wf_not_own_child h i nd : wf h -> h !! i = Some nd -> i ∉ children nd.
Proof.
  intros W Hi Hin. destruct (wf_child h W i nd i Hi Hin) as (cn & Hc & Hp).
  assert (cn = nd) by congruence. subst cn.
  destruct (wf_parent h W i nd i Hi Hp). lia.
Qed.

Lemma wf_initial (s : State) : wf (initial_heap s).
Proof.
  split.
  - by exists (Node_init s None).
  - intros [|i] nd p E; [|by destruct i].
    injection E as <-. discriminate.
  - intros [|i] nd E; [done|by destruct i].
  - intros [|i] nd c E; [|by destruct i].
    injection E as <-. simpl. intros Hin. by apply elem_of_nil in Hin.
  - intros [|i] nd E; [|by destruct i].
    injection E as <-. constructor.
Qed.

(** Replacing a node by one with the same links keeps the tree. *)
Lemma wf_update h n nd nd' :
  wf h -> h !! n = Some nd ->
  parent nd' = parent nd -> children nd' = children nd ->
  wf (<[n := nd']> h).
Proof.
  intros W Hn Ep Ec.
  assert (Hlook : forall i x, <[n := nd']> h !! i = Some x ->
            exists y, h !! i = Some y /\ parent x = parent y /\ children x = children y).
  { intros i x E. apply list_lookup_insert_Some in E as [(-> & <- & _)|[Hne E]]; eauto. }
  assert (Hback : forall i y, h !! i = Some y ->
            exists x, <[n := nd']> h !! i = Some x /\ parent x = parent y /\ children x = children y).
  { intros i y E. destruct (decide (i = n)) as [->|Hne].
    - exists nd'. rewrite list_lookup_insert_eq by (by eapply lookup_lt_Some).
      assert (y = nd) by congruence. subst y. done.
    - exists y. by rewrite list_lookup_insert_ne. }
  split.
  - destruct (wf_root h W) as (r & Hr & Hp).
    destruct (Hback 0 r Hr) as (x & Hx & Ex & _). exists x. split; congruence.
  - intros i x p E Hp. destruct (Hlook i x E) as (y & Hy & Ey & _).
    rewrite Ey in Hp. destruct (wf_parent h W i y p Hy Hp) as (Hlt & pn & Hpn & Hin).
    split; [done|]. destruct (Hback p pn Hpn) as (pn' & Hpn' & _ & Ecs).
    exists pn'. split; [done|]. by rewrite Ecs.
  - intros i x E Hp. destruct (Hlook i x E) as (y & Hy & Ey & _).
    rewrite Ey in Hp. by eapply wf_orphan.
  - intros i x c E Hin. destruct (Hlook i x E) as (y & Hy & _ & Ey).
    rewrite Ey in Hin. destruct (wf_child h W i y c Hy Hin) as (cn & Hcn & Hp).
    destruct (Hback c cn Hcn) as (cn' & Hcn' & Ep' & _).
    exists cn'. split; [done|]. congruence.
  - intros i x E. destruct (Hlook i x E) as (y & Hy & _ & Ey).
    rewrite Ey. by eapply wf_nodup.
Qed.

(** The heap after [_expand] made a node: the new node at the end, the
    expanded node with one more child, the rest as before. *)
Lemma lookup_grow h n nd' new_node i x :
  n < length h ->
  <[n := nd']> (h ++ [new_node]) !! i = Some x <->
    (i = n /\ x = nd') \/ (i <> n /\ h !! i = Some x) \/ (i = length h /\ x = new_node).
Proof.
  intros Hn. rewrite list_lookup_insert_Some, lookup_snoc_Some, length_app. simpl.
  split.
  - intros [(-> & -> & _)|(Hne & [[_ E]|[-> ->]])]; eauto.
  - intros [[-> ->]|[[Hne E]|[-> ->]]].
    + left. repeat split; lia.
    + right. split; [done|]. left. split; [|done]. by eapply lookup_lt_Some.
    + right. split; [lia|]. by right.
Qed.

Lemma wf_grow h n nd (s : State) :
  wf h -> h !! n = Some nd ->
  wf (<[n := add_child (length h) nd]> (h ++ [Node_init s (Some n)])).
Proof.
  intros W Hn.
  assert (Hlt : n < length h) by (by eapply lookup_lt_Some).
  set (h1 := <[n := add_child (length h) nd]> (h ++ [Node_init s (Some n)])).
  assert (Hlook : forall i x, h1 !! i = Some x ->
            (i = length h /\ x = Node_init s (Some n)) \/
            exists y, h !! i = Some y /\ parent x = parent y /\
              (children x = children y \/ (i = n /\ children x = children y ++ [length h]))).
  { intros i x E. apply lookup_grow in E as [[-> ->]|[[Hne E]|[-> ->]]]; [|by eauto 6|by left|done].
    right. exists nd. simpl. eauto. }
  assert (Hback : forall i y, h !! i = Some y ->
            exists x, h1 !! i = Some x /\ parent x = parent y /\
              forall c, c ∈ children y -> c ∈ children x).
  { intros i y E. destruct (decide (i = n)) as [->|Hne].
    - exists (add_child (length h) nd). assert (y = nd) by congruence. subst y.
      split; [apply lookup_grow; auto|]. split; [done|].
      intros c Hc. simpl. apply elem_of_app. by left.
    - exists y. split; [apply lookup_grow; auto|]. done. }
  assert (Hnew : h1 !! length h = Some (Node_init s (Some n))).
  { apply lookup_grow; auto. }
  assert (Hn1 : h1 !! n = Some (add_child (length h) nd)).
  { apply lookup_grow; auto. }
  split.
  - destruct (wf_root h W) as (r & Hr & Hp).
    destruct (Hback 0 r Hr) as (x & Hx & Ex & _). exists x. split; congruence.
  - intros i x p E Hp. destruct (Hlook i x E) as [[-> ->]|(y & Hy & Ey & _)].
    + simpl in Hp. injection Hp as <-. split; [done|].
      eexists. split; [exact Hn1|]. simpl. apply elem_of_app. right.
      by apply list_elem_of_singleton.
    + rewrite Ey in Hp. destruct (wf_parent h W i y p Hy Hp) as (Hlt' & pn & Hpn & Hin).
      split; [done|]. destruct (Hback p pn Hpn) as (pn' & Hpn' & _ & Hcs). eauto.
  - intros i x E Hp. destruct (Hlook i x E) as [[-> ->]|(y & Hy & Ey & _)]; [done|].
    rewrite Ey in Hp. by eapply wf_orphan.
  - intros i x c E Hin. destruct (Hlook i x E) as [[-> ->]|(y & Hy & _ & [Ey|[-> Ey]])].
    + simpl in Hin. by apply elem_of_nil in Hin.
    + rewrite Ey in Hin. destruct (wf_child h W i y c Hy Hin) as (cn & Hcn & Hp).
      destruct (Hback c cn Hcn) as (cn' & Hcn' & Ep' & _).
      exists cn'. split; [done|]. congruence.
    + rewrite Ey in Hin. apply elem_of_app in Hin as [Hin|Hin].
      * destruct (wf_child h W n y c Hy Hin) as (cn & Hcn & Hp).
        destruct (Hback c cn Hcn) as (cn' & Hcn' & Ep' & _).
        exists cn'. split; [done|]. congruence.
      * apply list_elem_of_singleton in Hin as ->. eauto.
  - intros i x E. destruct (Hlook i x E) as [[-> ->]|(y & Hy & _ & [Ey|[-> Ey]])].
    + constructor.
    + rewrite Ey. by eapply wf_nodup.
    + rewrite Ey. apply NoDup_app. split; [by eapply wf_nodup|]. split; [|apply NoDup_singleton].
      intros c Hc Hc'. apply list_elem_of_singleton in Hc' as ->.
      destruct (wf_child h W n y (length h) Hy Hc) as (cn & Hcn & _).
      apply lookup_lt_Some in Hcn. lia.
Qed.

Lemma starts_snoc tr n i : starts (tr ++ [n]) i = starts tr i + pend (Some n) i.
Proof.
  unfold starts, pend. rewrite count_occ_app. simpl.
  destruct (Nat.eq_dec n i) as [->|Hne].
  - by rewrite decide_True.
  - rewrite decide_False; [done|]. congruence.
Qed.

Lemma starts_fresh tr i : (forall j, j ∈ tr -> j <> i) -> starts tr i = 0.
Proof.
  intros Hf. unfold starts. apply count_occ_not_In. intros Hin.
  apply list_elem_of_In in Hin. by apply (Hf i).
Qed.

Lemma inv_initial (s : State) : inv [] (initial_heap s) None.
Proof.
  split.
  - apply wf_initial.
  - intros [|i] nd E; [|by destruct i]. injection E as <-. done.
  - intros r E. injection E as <-. done.
  - intros [|i] nd E Hi; [lia|by destruct i].
  - simpl. lia.
  - intros i Hi. by apply elem_of_nil in Hi.
  - done.
Qed.

Lemma visits_at_insert_ne h n nd' c : c <> n -> visits_at (<[n := nd']> h) c = visits_at h c.
Proof. intros Hne. unfold visits_at. by rewrite list_lookup_insert_ne. Qed.

Lemma visits_at_insert_eq h n nd' : n < length h -> visits_at (<[n := nd']> h) n = visits nd'.
Proof. intros Hn. unfold visits_at. by rewrite list_lookup_insert_eq. Qed.

(** A backpropagation is about to start at a node of the heap. *)
Lemma inv_start tr h n : inv tr h None -> n < length h -> inv (tr ++ [n]) h (Some n).
Proof.
  intros I Hn. split.
  - apply I.
  - intros i nd E. rewrite starts_snoc. pose proof (inv_sum _ _ _ I i nd E) as Hs.
    unfold pend in Hs at 1. rewrite decide_False in Hs by done. lia.
  - intros r E. pose proof (inv_root _ _ _ I r E) as Hr. rewrite length_app. simpl in *. lia.
  - intros i nd E Hi. pose proof (inv_pos _ _ _ I i nd E Hi). unfold pend in *.
    rewrite decide_False in H by done. lia.
  - rewrite length_app. pose proof (inv_size _ _ _ I). simpl. lia.
  - intros i Hi. apply elem_of_app in Hi as [Hi|Hi]; [by eapply inv_trace|].
    by apply list_elem_of_singleton in Hi as ->.
  - intros m E. by injection E as <-.
Qed.

(** A node changes in a field other than its links and its visit count. *)
Lemma inv_update tr h next n nd nd' :
  inv tr h next -> h !! n = Some nd ->
  parent nd' = parent nd -> children nd' = children nd -> visits nd' = visits nd ->
  inv tr (<[n := nd']> h) next.
Proof.
  intros I Hn Ep Ec Ev.
  assert (Hlt : n < length h) by (by eapply lookup_lt_Some).
  assert (Hva : forall c, visits_at (<[n := nd']> h) c = visits_at h c).
  { intros c. destruct (decide (c = n)) as [->|Hne].
    - rewrite visits_at_insert_eq by done. unfold visits_at. by rewrite Hn.
    - by apply visits_at_insert_ne. }
  assert (Hlook : forall i x, <[n := nd']> h !! i = Some x ->
            exists y, h !! i = Some y /\ children x = children y /\ visits x = visits y).
  { intros i x E. apply list_lookup_insert_Some in E as [(-> & <- & _)|[Hne E]]; eauto. }
  split.
  - eapply wf_update; eauto. apply I.
  - intros i x E. destruct (Hlook i x E) as (y & Hy & Ecs & Evs).
    rewrite Ecs, Evs, (sum_visits_ext h) by auto. by apply I.
  - intros r E. destruct (Hlook 0 r E) as (y & Hy & _ & Evs). rewrite Evs. by apply I.
  - intros i x E Hi. destruct (Hlook i x E) as (y & Hy & _ & Evs). rewrite Evs. by apply I.
  - rewrite length_insert. apply I.
  - intros i Hi. rewrite length_insert. by eapply inv_trace.
  - intros m E. rewrite length_insert. by eapply inv_next.
Qed.

(** [_expand] made a node, and the backpropagation is about to start at it. *)
Lemma inv_grow tr h n nd (s : State) :
  inv tr h None -> h !! n = Some nd ->
  inv (tr ++ [length h])
      (<[n := add_child (length h) nd]> (h ++ [Node_init s (Some n)]))
      (Some (length h)).
Proof.
  intros I Hn.
  assert (Hlt : n < length h) by (by eapply lookup_lt_Some).
  set (h1 := <[n := add_child (length h) nd]> (h ++ [Node_init s (Some n)])).
  assert (Hlen : length h1 = S (length h)).
  { unfold h1. rewrite length_insert, length_app. simpl. lia. }
  assert (Hva : forall c, visits_at h1 c = visits_at h c).
  { intros c. unfold visits_at. destruct (h1 !! c) as [x|] eqn:E.
    - apply lookup_grow in E as [[-> ->]|[[Hne E]|[-> ->]]]; [|by rewrite E| |done].
      + by rewrite Hn.
      + by rewrite (lookup_ge_None_2 h (length h)).
    - apply lookup_ge_None in E. rewrite lookup_ge_None_2; [done|lia]. }
  assert (Hpn : forall i, i < length h -> pend (Some (length h)) i = 0).
  { intros i Hi. unfold pend. rewrite decide_False; [done|]. intros [= <-]. lia. }
  assert (Hp0 : forall i, pend None i = 0) by done.
  split.
  - by apply wf_grow; [apply I|].
  - intros i x E. rewrite starts_snoc.
    apply lookup_grow in E as [[-> ->]|[[Hne E]|[-> ->]]]; [| | |done].
    + simpl. rewrite sum_visits_app, (sum_visits_ext h) by auto.
      assert (sum_visits h1 [length h] = 0) as ->.
      { unfold sum_visits. simpl. rewrite Hva. unfold visits_at.
        by rewrite lookup_ge_None_2. }
      pose proof (inv_sum _ _ _ I n nd Hn) as Hs. rewrite Hp0 in Hs. lia.
    + rewrite (sum_visits_ext h) by auto.
      pose proof (inv_sum _ _ _ I i x E) as Hs. rewrite Hp0 in Hs. lia.
    + simpl. rewrite starts_fresh; [done|].
      intros j Hj. apply (inv_trace _ _ _ I) in Hj. lia.
  - intros r E. rewrite length_app. simpl.
    apply lookup_grow in E as [[E0 ->]|[[Hne E]|[E ->]]]; [| | |done].
    + simpl. rewrite <- E0 in Hn.
      pose proof (inv_root _ _ _ I nd Hn) as Hr. simpl in Hr. lia.
    + pose proof (inv_root _ _ _ I r E) as Hr. simpl in Hr. lia.
    + lia.
  - intros i x E Hi.
    apply lookup_grow in E as [[-> ->]|[[Hne E]|[-> ->]]]; [| | |done].
    + simpl. pose proof (inv_pos _ _ _ I n nd Hn Hi) as Hr. rewrite Hp0 in Hr. lia.
    + pose proof (inv_pos _ _ _ I i x E Hi) as Hr. rewrite Hp0 in Hr. lia.
    + unfold pend. rewrite decide_True by done. lia.
  - rewrite Hlen, length_app. pose proof (inv_size _ _ _ I). simpl. lia.
  - intros i Hi. rewrite Hlen. apply elem_of_app in Hi as [Hi|Hi].
    + apply (inv_trace _ _ _ I) in Hi. lia.
    + apply list_elem_of_singleton in Hi as ->. lia.
  - intros m [= <-]. rewrite Hlen. lia.
Qed.

(** One turn of the loop of [_backpropagate]. *)
Lemma inv_bump tr h n nd (result : Player) :
  inv tr h (Some n) -> h !! n = Some nd ->
  inv tr (<[n := bump result nd]> h) (parent nd).
Proof.
  intros I Hn. pose proof (inv_wf _ _ _ I) as W.
  assert (Hlt : n < length h) by (by eapply lookup_lt_Some).
  set (h1 := <[n := bump result nd]> h).
  assert (Hvn : visits_at h1 n = visits_at h n + 1).
  { unfold h1. rewrite visits_at_insert_eq by done. unfold visits_at. by rewrite Hn. }
  assert (Hvo : forall c, c <> n -> visits_at h1 c = visits_at h c).
  { intros c Hc. by apply visits_at_insert_ne. }
  assert (Hpar : forall p, parent nd = Some p -> p < n).
  { intros p Hp. by destruct (wf_parent h W n nd p Hn Hp). }
  assert (ND : forall i x, h !! i = Some x -> NoDup (children x)).
  { intros i x E. by eapply wf_nodup. }
  split.
  - eapply wf_update; eauto.
  - intros i x E. unfold h1 in E.
    apply list_lookup_insert_Some in E as [(<- & <- & _)|[Hne E]].
    + simpl. rewrite (sum_visits_one_more h h1 _ n) by eauto.
      rewrite decide_False by (by apply (wf_not_own_child h)).
      pose proof (inv_sum _ _ _ I n nd Hn) as Hs. unfold pend in *.
      rewrite decide_True in Hs by done.
      rewrite decide_False; [lia|]. intros Hp. apply Hpar in Hp. lia.
    + rewrite (sum_visits_one_more h h1 _ n) by eauto.
      pose proof (inv_sum _ _ _ I i x E) as Hs. unfold pend in *.
      rewrite decide_False in Hs by congruence.
      destruct (decide (parent nd = Some i)) as [Hp|Hp].
      * destruct (wf_parent h W n nd i Hn Hp) as (_ & pn & Hpn & Hin).
        assert (pn = x) by congruence. subst pn.
        rewrite decide_True by done. lia.
      * rewrite decide_False; [lia|]. intros Hin.
        destruct (wf_child h W i x n E Hin) as (cn & Hcn & Hp').
        congruence.
  - intros r E. unfold h1 in E.
    apply list_lookup_insert_Some in E as [(E0 & <- & _)|[Hne E]].
    + destruct (wf_root h W) as (r & Hr & Hp). rewrite E0 in Hn.
      assert (r = nd) by congruence. subst r. rewrite Hp. simpl.
      pose proof (inv_root _ _ _ I nd Hn) as Hr'. simpl in Hr'. lia.
    + pose proof (inv_root _ _ _ I r E) as Hr. simpl in Hr.
      destruct (parent nd) as [p|] eqn:Hp; [done|].
      exfalso. apply Hne. by eapply wf_orphan.
  - intros i x E Hi. unfold h1 in E.
    apply list_lookup_insert_Some in E as [(<- & <- & _)|[Hne E]].
    + simpl. lia.
    + pose proof (inv_pos _ _ _ I i x E Hi) as Hr. unfold pend in Hr.
      rewrite decide_False in Hr by congruence. lia.
  - unfold h1. rewrite length_insert. apply I.
  - intros i Hi. unfold h1. rewrite length_insert. by eapply inv_trace.
  - intros p Hp. unfold h1. rewrite length_insert. apply Hpar in Hp. lia.
Qed.

Lemma backprop_inv tr (result : Player) fuel :
  forall h next h',
    inv tr h next -> _backpropagate fuel h next result = Ok h' -> inv tr h' None.
Proof.
  induction fuel as [|fuel IH]; intros h [n|] h' I E; simpl in E;
    try discriminate; try (by injection E as <-).
  unfold backprop_step in E.
  destruct (get h n) as [nd| |] eqn:Hg; simpl in E; try discriminate.
  apply get_Ok in Hg. eapply IH; [|exact E]. by apply inv_bump.
Qed.

(** *** The iterations of [search] *)

(** [_expand] either appends one node under the expanded one and returns
    it, or changes nothing and returns the node it was given. *)
Lemma expand_cases h n nd h1 n1 :
  h !! n = Some nd -> _expand h n = Ok (h1, n1) ->
  (h1 = h /\ n1 = n) \/
  (exists s, h1 = <[n := add_child (length h) nd]> (h ++ [Node_init s (Some n)])
             /\ n1 = length h).
Proof.
  intros Hn E. unfold _expand in E.
  apply get_Ok in Hn. rewrite Hn in E. simpl in E.
  apply bind_Ok in E as (legal_moves & _ & E).
  apply bind_Ok in E as (child_states & _ & E).
  destruct (find _ legal_moves) as [move|].
  - apply bind_Ok in E as (s & _ & E). injection E as <- <-. eauto.
  - injection E as <- <-. by left.
Qed.

Lemma iteration_inv tr fuel g h h' g' n :
  inv tr h None -> iteration fuel g h = Ok (h', g', n) -> inv (tr ++ [n]) h' None.
Proof.
  intros I E. unfold iteration in E.
  apply bind_Ok in E as (node & _ & E).
  apply bind_Ok in E as (nd & Hnd & E). apply get_Ok in Hnd.
  apply bind_Ok in E as (t & _ & E).
  apply bind_Ok in E as ([h1 node1] & Hex & E).
  apply bind_Ok in E as (nd1 & Hnd1 & E). apply get_Ok in Hnd1.
  apply bind_Ok in E as ([[s' g1] result] & _ & E).
  apply bind_Ok in E as (h3 & Hbp & E). injection E as <- <- <-.
  assert (I1 : inv (tr ++ [node1]) h1 (Some node1)).
  { destruct t; simpl in Hex.
    - injection Hex as <- <-. apply inv_start; [done|]. by eapply lookup_lt_Some.
    - destruct (expand_cases h node nd h1 node1 Hnd Hex) as [[-> ->]|(s & -> & ->)].
      + apply inv_start; [done|]. by eapply lookup_lt_Some.
      + by apply inv_grow. }
  eapply backprop_inv; [|exact Hbp].
  by eapply inv_update.
Qed.

(** One iteration adds one visit to the root. *)
Lemma iteration_root_visits tr fuel g h h' g' n r :
  inv tr h None -> iteration fuel g h = Ok (h', g', n) -> h !! 0 = Some r ->
  exists r', h' !! 0 = Some r' /\ visits r' = visits r + 1.
Proof.
  intros I E Hr. pose proof (iteration_inv _ _ _ _ _ _ _ I E) as I'.
  destruct (wf_root h' (inv_wf _ _ _ I')) as (r' & Hr' & _).
  exists r'. split; [done|].
  pose proof (inv_root _ _ _ I r Hr) as Hv. pose proof (inv_root _ _ _ I' r' Hr') as Hv'.
  rewrite length_app in Hv'. simpl in *. lia.
Qed.

Lemma iterations_inv fuel n :
  forall tr g h h' g' tr',
    inv tr h None -> iterations n fuel g h = Ok (h', g', tr') -> inv (tr ++ tr') h' None.
Proof.
  induction n as [|n IH]; intros tr g h h' g' tr' I E; simpl in E.
  - injection E as <- <- <-. by rewrite app_nil_r.
  - apply bind_Ok in E as ([[h1 g1] node] & Hit & E).
    apply bind_Ok in E as ([[h2 g2] nodes] & Hits & E). injection E as <- <- <-.
    replace (tr ++ node :: nodes) with ((tr ++ [node]) ++ nodes)
      by (by rewrite <- app_assoc).
    eapply IH; [|exact Hits]. by eapply iteration_inv.
Qed.

Lemma iterations_length fuel n :
  forall g h h' g' tr', iterations n fuel g h = Ok (h', g', tr') -> length tr' = n.
Proof.
  induction n as [|n IH]; intros g h h' g' tr' E; simpl in E.
  - by injection E as <- <- <-.
  - apply bind_Ok in E as ([[h1 g1] node] & Hit & E).
    apply bind_Ok in E as ([[h2 g2] nodes] & Hits & E). injection E as <- <- <-.
    simpl. f_equal. by eapply IH.
Qed.

(** The heap of a search after [n] completed iterations. *)
Lemma search_inv fuel n g (s0 : State) h g' tr :
  iterations n fuel g (initial_heap s0) = Ok (h, g', tr) ->
  inv tr h None /\ length tr = n.
Proof.
  intros E. split; [|by eapply iterations_length].
  apply (iterations_inv fuel n [] g (initial_heap s0) h g' tr); [|done].
  apply inv_initial.
Qed.

(** *** Fuel *)

(** The loops of [_select] and [_backpropagate] end on a well-formed heap:
    a descent goes to a child, which sits higher in the heap, and a walk up
    goes to a parent, which sits lower.  With the fuel [search] gives them
    (the size of the heap) they never run dry, and more fuel changes
    nothing. *)
Lemma best_child_is_child h node w c :
  best_child h node w = Ok c -> exists nd, h !! node = Some nd /\ c ∈ children nd.
Proof.
  unfold best_child. intros E.
  apply bind_Ok in E as (nd & Hnd & E). apply get_Ok in Hnd.
  apply bind_Ok in E as (ws & _ & E).
  apply bind_Ok in E as (i & _ & E).
  destruct (children nd !! i) as [c'|] eqn:Hc; [|done]. injection E as <-.
  exists nd. split; [done|]. apply list_elem_of_lookup. eauto.
Qed.

Lemma select_fuel h :
  wf h ->
  forall fuel fuel' node,
    length h <= fuel + node -> length h <= fuel' + node ->
    _select fuel h node = _select fuel' h node.
Proof.
  intros W. induction fuel as [|fuel IH]; intros fuel' node Hf Hf'.
  - destruct fuel'; simpl; [done|].
    destruct (get h node) as [nd| |] eqn:Hg; simpl; try done.
    apply get_Ok, lookup_lt_Some in Hg. lia.
  - destruct fuel' as [|fuel']; simpl.
    + destruct (get h node) as [nd| |] eqn:Hg; simpl; try done.
      apply get_Ok, lookup_lt_Some in Hg. lia.
    + destruct (get h node) as [nd| |] eqn:Hg; simpl; try done.
      destruct (game_is_terminal (state nd)) as [[|]| |]; simpl; try done.
      destruct (is_fully_expanded h node) as [[|]| |]; simpl; try done.
      destruct (best_child h node weight_default) as [c| |] eqn:Hb; simpl; try done.
      apply best_child_is_child in Hb as (nd' & Hnd' & Hc).
      destruct (wf_child h W node nd' c Hnd' Hc) as (cn & Hcn & Hp).
      destruct (wf_parent h W c cn node Hcn Hp) as (Hlt & _).
      apply IH; lia.
Qed.

Lemma backpropagate_fuel (result : Player) :
  forall fuel fuel' h node,
    wf h -> node < fuel -> node < fuel' ->
    _backpropagate fuel h (Some node) result = _backpropagate fuel' h (Some node) result.
Proof.
  induction fuel as [|fuel IH]; intros fuel' h node W Hf Hf'; [lia|].
  destruct fuel' as [|fuel']; [lia|]. simpl. unfold backprop_step.
  destruct (get h node) as [nd| |] eqn:Hg; simpl; try done.
  apply get_Ok in Hg.
  destruct (parent nd) as [p|] eqn:Hp.
  - destruct (wf_parent h W node nd p Hg Hp) as (Hlt & _).
    apply IH; [|lia|lia]. by eapply wf_update.
  - by destruct fuel, fuel'.
Qed.

(** The iterations of a search, one batch after another. *)
Lemma iterations_app fuel n m :
  forall g h,
    iterations (n + m) fuel g h =
    let* (h1, g1, tr1) := iterations n fuel g h in
    let* (h2, g2, tr2) := iterations m fuel g1 h1 in
    Ok (h2, g2, tr1 ++ tr2).
Proof.
  induction n as [|n IH]; intros g h; simpl.
  - by destruct (iterations m fuel g h) as [[[h2 g2] tr2]| |].
  - destruct (iteration fuel g h) as [[[h1 g1] node]| |]; simpl; try done.
    rewrite IH.
    destruct (iterations n fuel g1 h1) as [[[h2 g2] tr2]| |]; simpl; try done.
    by destruct (iterations m fuel g2 h2) as [[[h3 g3] tr3]| |].
Qed.

(** *** Visit counts *)

(** C7: when [search], run for a positive [n_simulations], returns, the
    root of the tree it built has [visits = n_simulations]: each of the
    iterations ended with a backpropagation that added one visit to the
    root.  (Nothing is asked of the initial state: on a terminal one the
    search does not return.) *)
Theorem root_visits_after_search fuel g (n_simulations : Z) (s0 : State) best h :
  (0 < n_simulations)%Z ->
  search fuel g n_simulations s0 = Ok (best, h) ->
  exists r, h !! 0 = Some r /\ Z.of_nat (visits r) = n_simulations.
Proof.
  intros Hn E. unfold search in E.
  apply bind_Ok in E as ([[h1 g1] tr] & Hit & E).
  apply bind_Ok in E as (b & _ & E). injection E as <- <-.
  apply search_inv in Hit as [I Hlen].
  destruct (wf_root h1 (inv_wf _ _ _ I)) as (r & Hr & _).
  exists r. split; [done|].
  pose proof (inv_root _ _ _ I r Hr) as Hv. simpl in Hv. lia.
Qed.


(** *** The moves of a rollout *)

Lemma random_choice_draw {A} (g g1 : Rng) (l : list A) (x : A) :
  random_choice g l = Ok (x, g1) <->
  l !! (tape g (pos g) mod length l) = Some x /\ g1 = mkRng (tape g) (S (pos g)).
Proof.
  unfold random_choice. destruct l as [|a l].
  - split; [done|]. by intros [E _].
  - destruct ((a :: l) !! (tape g (pos g) mod length (a :: l))) as [y|]; split.
    + by intros [= <- <-].
    + by intros [[= <-] ->].
    + done.
    + by intros [E _].
Qed.

Lemma rollout_path_draws g (s : State) moves g' s' :
  rollout_path g s moves g' s' ->
  tape g' = tape g /\ pos g' = pos g + length moves.
Proof.
  induction 1 as [g s|g s legal_moves move s1 moves g' s' _ _ _ _ _ [IHt IHp]]; simpl.
  - split; [done|lia].
  - simpl in IHt, IHp. split; [done|lia].
Qed.

Lemma random_policy_path fuel :
  forall g s s' g' (r : Player),
    random_policy fuel g s = Ok (s', g', r) ->
    exists moves,
      length moves <= fuel /\ rollout_path g s moves g' s' /\
      gs_is_terminal s' = Ok true /\ gs_get_result s' = Ok r.
Proof.
  induction fuel as [|fuel IH]; intros g s s' g' r E; simpl in E.
  - destruct (gs_is_terminal s) as [[|]| |] eqn:Ht; simpl in E; try discriminate.
    apply bind_Ok in E as (r0 & Hr & E). injection E as <- <- <-.
    exists []. split; [done|]. split; [constructor|done].
  - destruct (gs_is_terminal s) as [[|]| |] eqn:Ht; simpl in E; try discriminate.
    + apply bind_Ok in E as (r0 & Hr & E). injection E as <- <- <-.
      exists []. split; [simpl; lia|]. split; [constructor|done].
    + apply bind_Ok in E as (legal_moves & Hl & E).
      apply bind_Ok in E as ([move g1] & Hc & E).
      apply bind_Ok in E as (s1 & Hp & E).
      apply random_choice_draw in Hc as [Hm Hg]. rewrite Hg in E.
      apply IH in E as (moves & Hlen & Hpath & Hterm & Hres).
      exists (move :: moves). split; [simpl; lia|]. split; [|done].
      by eapply rollout_move.
Qed.

Lemma path_random_policy g (s : State) moves g' s' (r : Player) :
  rollout_path g s moves g' s' ->
  gs_is_terminal s' = Ok true -> gs_get_result s' = Ok r ->
  forall fuel, length moves <= fuel -> random_policy fuel g s = Ok (s', g', r).
Proof.
  induction 1 as [g s|g s legal_moves move s1 moves g' s' Ht Hl Hm Hp _ IH];
    intros Hterm Hres fuel Hf.
  - destruct fuel; simpl; rewrite Hterm; simpl; by rewrite Hres.
  - destruct fuel as [|fuel]; [simpl in Hf; lia|]. simpl. rewrite Ht. simpl.
    rewrite Hl. simpl.
    assert (Hc : random_choice g legal_moves = Ok (move, mkRng (tape g) (S (pos g))))
      by (by apply random_choice_draw).
    rewrite Hc. simpl. rewrite Hp. simpl. apply IH; [done|done|]. simpl in Hf. lia.
Qed.

(** *** The points of a search *)

Lemma set_state_same nd : set_state (state nd) nd = nd.
Proof. by destruct nd. Qed.

(** A rollout on the state of a node is a sequence of [step_play]. *)
Lemma rollout_steps g (s : State) moves g' s' :
  rollout_path g s moves g' s' ->
  forall h node nd, h !! node = Some nd -> state nd = s ->
    rtc search_step (h, InRollout node) (<[node := set_state s' nd]> h, InRollout node).
Proof.
  induction 1 as [g s|g s legal_moves move s1 moves g' s' Ht Hl Hm Hp _ IH];
    intros h node nd Hn Hs.
  - rewrite <- Hs, set_state_same, list_insert_id by done. apply rtc_refl.
  - rewrite <- Hs in Ht, Hl, Hp. eapply rtc_l.
    + eapply step_play; [exact Hn|exact Ht|exact Hl| |exact Hp].
      by eapply list_elem_of_lookup_2.
    + specialize (IH (<[node := set_state s1 nd]> h) node (set_state s1 nd)).
      rewrite list_insert_insert_eq in IH. apply IH; [|done].
      apply list_lookup_insert_eq. by eapply lookup_lt_Some.
Qed.

Lemma backprop_steps (result : Player) fuel :
  forall h next h',
    _backpropagate fuel h next result = Ok h' ->
    rtc search_step (h, InBackprop next result) (h', InBackprop None result).
Proof.
  induction fuel as [|fuel IH]; intros h [n|] h' E; simpl in E;
    try discriminate; try (injection E as <-; apply rtc_refl).
  unfold backprop_step in E.
  destruct (get h n) as [nd| |] eqn:Hg; simpl in E; try discriminate.
  apply get_Ok in Hg. eapply rtc_l; [by apply step_walk|]. by apply IH.
Qed.

(** The body of the loop of [search] is a path of steps from one [Between]
    to the next. *)
Lemma iteration_steps fuel g h h' g' n :
  iteration fuel g h = Ok (h', g', n) ->
  rtc search_step (h, Between) (h', Between).
Proof.
  intros E. unfold iteration in E.
  apply bind_Ok in E as (node & Hsel & E).
  apply bind_Ok in E as (nd & Hnd & E). apply get_Ok in Hnd.
  apply bind_Ok in E as (t & Ht & E).
  apply bind_Ok in E as ([h1 node1] & Hex & E).
  apply bind_Ok in E as (nd1 & Hnd1 & E). apply get_Ok in Hnd1.
  apply bind_Ok in E as ([[s' g1] result] & Hrp & E).
  apply bind_Ok in E as (h3 & Hbp & E). injection E as <- <- <-.
  apply random_policy_path in Hrp as (moves & _ & Hpath & Hterm & Hres).
  eapply rtc_l; [by eapply step_descend|].
  etrans; [by eapply rollout_steps|].
  eapply rtc_l.
  - eapply (step_result _ node1 (set_state s' nd1)); [|exact Hterm|exact Hres].
    apply list_lookup_insert_eq. by eapply lookup_lt_Some.
  - eapply rtc_r; [by eapply backprop_steps|]. apply step_return.
Qed.

Lemma iterations_steps fuel k :
  forall g h h' g' tr,
    iterations k fuel g h = Ok (h', g', tr) ->
    rtc search_step (h, Between) (h', Between).
Proof.
  induction k as [|k IH]; intros g h h' g' tr E; simpl in E.
  - injection E as <- <- <-. apply rtc_refl.
  - apply bind_Ok in E as ([[h1 g1] node] & Hit & E).
    apply bind_Ok in E as ([[h2 g2] nodes] & Hits & E). injection E as <- <- <-.
    etrans; [by eapply iteration_steps|by eapply IH].
Qed.

Lemma search_step_inv p p' : search_step p p' -> point_inv p -> point_inv p'.
Proof.
  destruct 1 as [h node nd t h1 node1 Hsel Hnd Ht Hex
                |h node nd legal_moves move s1 Hn _ _ _ _
                |h node nd result Hn _ _
                |h n nd result Hn
                |h result];
    unfold point_inv; simpl; intros [tr I].
  - exists tr. destruct t; simpl in Hex.
    + injection Hex as <- <-. apply inv_start; [done|]. by eapply lookup_lt_Some.
    + destruct (expand_cases h node nd h1 node1 Hnd Hex) as [[-> ->]|(s & -> & ->)].
      * apply inv_start; [done|]. by eapply lookup_lt_Some.
      * by apply inv_grow.
  - exists tr. by eapply inv_update.
  - by exists (tr ++ [node]).
  - exists tr. by apply inv_bump.
  - by exists tr.
Qed.

Lemma search_point_inv (s0 : State) p : search_point s0 p -> point_inv p.
Proof.
  unfold search_point. intros R.
  eapply (rtc_ind_r point_inv); [|intros y z _ Hs Hy; by eapply search_step_inv|exact R].
  exists []. apply inv_initial.
Qed.

(** C9, as the code has it.  At every point of a search the visits of a
    node are at least the sum of the visits of its children, for every node
    but one: inside [_backpropagate], the node the loop is about to update,
    whose child has just been given the visit it has not yet received
    itself; there the sum exceeds the visits by at most one.  So the
    inequality holds for every node between the iterations, all through
    [_select], after [_expand], all through the rollout and when
    [_backpropagate] has returned.  On the heap left by any number of
    completed iterations the visits of a node are the visits of its
    children plus the backpropagations that started at the node itself, and
    at the root they equal the sum when no backpropagation started at the
    root, that is when every iteration walked up through a child of the
    root. *)
Theorem visits_cover_children (s0 : State) :
  (forall h ph, search_point s0 (h, ph) ->
     forall N nd, h !! N = Some nd ->
       (pending ph <> Some N -> sum_visits h (children nd) <= visits nd) /\
       sum_visits h (children nd) <= visits nd + 1) /\
  (forall fuel k g h g' tr,
     iterations k fuel g (initial_heap s0) = Ok (h, g', tr) ->
     search_point s0 (h, Between) /\
     (forall N nd, h !! N = Some nd ->
        visits nd = sum_visits h (children nd) + starts tr N) /\
     (0 ∉ tr -> forall r, h !! 0 = Some r -> visits r = sum_visits h (children r))).
Proof.
  split.
  - intros h ph R N nd HN. apply search_point_inv in R.
    unfold point_inv in R. simpl in R. destruct ph as [|node|next result]; simpl.
    + destruct R as [tr I]. pose proof (inv_sum _ _ _ I N nd HN) as Hs.
      unfold pend in Hs. simpl in Hs. lia.
    + destruct R as [tr I]. pose proof (inv_sum _ _ _ I N nd HN) as Hs.
      rewrite starts_snoc in Hs. lia.
    + destruct R as [tr I]. pose proof (inv_sum _ _ _ I N nd HN) as Hs.
      unfold pend in Hs. destruct (decide (next = Some N)) as [->|Hne].
      * split; [done|lia].
      * lia.
  - intros fuel k g h g' tr E. split; [by eapply iterations_steps|].
    apply search_inv in E as [I _].
    assert (Hs : forall N nd, h !! N = Some nd ->
              visits nd = sum_visits h (children nd) + starts tr N).
    { intros N nd HN. pose proof (inv_sum _ _ _ I N nd HN) as Hs.
      unfold pend in Hs. simpl in Hs. lia. }
    split; [done|].
    intros H0 r Hr. rewrite (Hs 0 r Hr), starts_fresh; [lia|].
    intros j Hj ->. done.
Qed.

(** *** Searches that cannot return a move *)

Lemma best_child_no_children h node nd w :
  h !! node = Some nd -> children nd = [] -> best_child h node w = Raise ValueError.
Proof.
  intros Hn Hc. unfold best_child. apply get_Ok in Hn. rewrite Hn. simpl.
  by rewrite Hc.
Qed.

(** C5, as the code has it: for [n_simulations <= 0] the loop of [search]
    does not run, and [search] fails in the final [best_child] with the
    [ValueError] of [np.argmax] over the root's empty list of children. *)
Theorem search_nonpositive fuel g (n_simulations : Z) (s0 : State) :
  (n_simulations <= 0)%Z ->
  iterations (Z.to_nat n_simulations) fuel g (initial_heap s0)
    = Ok (initial_heap s0, g, []) /\
  search fuel g n_simulations s0 = Raise ValueError.
Proof.
  intros Hn. unfold search.
  assert (Z.to_nat n_simulations = 0) as -> by lia. simpl. done.
Qed.

(** An iteration on a tree that is a terminal root alone. *)
Lemma iteration_terminal_root fuel g (s0 : State) (r : Player) w v :
  game_is_terminal s0 = Ok true ->
  gs_is_terminal s0 = Ok true ->
  gs_get_result s0 = Ok r ->
  exists w', iteration fuel g [mkNode s0 None [] w v] = Ok ([mkNode s0 None [] w' (v + 1)], g, 0).
Proof.
  intros Hgt Hst Hres. unfold iteration. simpl. repeat (rewrite Hgt; simpl).
  assert (random_policy fuel g s0 = Ok (s0, g, r)) as ->.
  { destruct fuel; simpl; rewrite Hst; simpl; by rewrite Hres. }
  simpl. eauto.
Qed.

Lemma iterations_terminal_root fuel g (s0 : State) (r : Player) n :
  game_is_terminal s0 = Ok true ->
  gs_is_terminal s0 = Ok true ->
  gs_get_result s0 = Ok r ->
  forall w v, exists w',
    iterations n fuel g [mkNode s0 None [] w v]
      = Ok ([mkNode s0 None [] w' (v + n)], g, replicate n 0).
Proof.
  intros Hgt Hst Hres. induction n as [|n IH]; intros w v; simpl.
  - exists w. by rewrite Nat.add_0_r.
  - destruct (iteration_terminal_root fuel g s0 r w v Hgt Hst Hres) as (w1 & ->).
    simpl. destruct (IH w1 (v + 1)) as (w2 & ->). simpl.
    exists w2. by replace (v + S n) with (v + 1 + n) by lia.
Qed.

(** C4, as the code has it: on an initial state that is terminal (for the
    game and for the state's own test, with a result to report), [search]
    checks nothing: it runs every iteration at the root, each one a
    rollout that returns at once and a backpropagation into the root, and
    then fails in the final [best_child] with the [ValueError] of
    [np.argmax] over the root's empty list of children. *)
Theorem search_terminal_root fuel g (n_simulations : Z) (s0 : State) (r : Player) :
  game_is_terminal s0 = Ok true ->
  gs_is_terminal s0 = Ok true ->
  gs_get_result s0 = Ok r ->
  (exists w, iterations (Z.to_nat n_simulations) fuel g (initial_heap s0)
     = Ok ([mkNode s0 None [] w (Z.to_nat n_simulations)], g,
           replicate (Z.to_nat n_simulations) 0)) /\
  search fuel g n_simulations s0 = Raise ValueError.
Proof.
  intros Hgt Hst Hres.
  destruct (iterations_terminal_root fuel g s0 r (Z.to_nat n_simulations) Hgt Hst Hres 0 0)
    as (w & E).
  split; [by exists w|].
  unfold search, initial_heap, Node_init. rewrite E. simpl. done.
Qed.

(** *** Selection *)

Lemma argmax_from_spec l :
  forall pre mx idx,
    float_ordered (pre ++ l) ->
    first_max pre idx mx ->
    exists m, first_max (pre ++ l) (argmax_from mx idx (length pre) l) m.
Proof.
  induction l as [|x l IH]; intros pre mx idx O (Hidx & Hle & Hlt); simpl.
  - exists mx. by rewrite app_nil_r.
  - assert (Hmx : mx ∈ pre ++ x :: l).
    { apply elem_of_app. left. apply list_elem_of_lookup. eauto. }
    assert (Hx : x ∈ pre ++ x :: l).
    { apply elem_of_app. right. apply elem_of_cons. by left. }
    assert (Hpre : forall j y, pre !! j = Some y -> y ∈ pre ++ x :: l).
    { intros j y E. apply elem_of_app. left. apply list_elem_of_lookup. eauto. }
    assert (Hi : idx < length pre) by (by eapply lookup_lt_Some).
    replace (S (length pre)) with (length (pre ++ [x]))
      by (rewrite length_app; simpl; lia).
    replace (pre ++ x :: l) with ((pre ++ [x]) ++ l) in * by (by rewrite <- app_assoc).
    destruct (fle x mx) eqn:Exm.
    + apply IH; [done|]. repeat split.
      * by rewrite lookup_app_l.
      * intros j y E. apply lookup_snoc_Some in E as [[_ E]|[_ <-]]; eauto.
      * intros j y Hj E. rewrite lookup_app_l in E by lia. eauto.
    + rewrite (fo_nan _ O x Hx).
      assert (Hmx_x : fle mx x = true).
      { destruct (fo_total _ O x mx Hx Hmx) as [E|E]; congruence. }
      apply IH; [done|]. repeat split.
      * apply lookup_snoc_Some. by right.
      * intros j y E. apply lookup_snoc_Some in E as [[_ E]|[_ <-]].
        -- apply (fo_trans _ O y mx x); eauto.
        -- destruct (fo_total _ O x x Hx Hx); done.
      * intros j y Hj E. rewrite lookup_app_l in E by done.
        destruct (fle x y) eqn:Exy; [|done].
        rewrite <- Exm. symmetry. apply (fo_trans _ O x y mx); eauto.
Qed.

(** [np.argmax] returns the position of the first maximum. *)
Lemma np_argmax_spec l :
  l <> [] -> float_ordered l ->
  exists r m, np_argmax l = Ok r /\ first_max l r m.
Proof.
  intros Hne O. destruct l as [|x l]; [done|]. simpl.
  assert (Hx : x ∈ x :: l) by (apply elem_of_cons; by left).
  rewrite (fo_nan _ O x Hx).
  destruct (argmax_from_spec l [x] x 0) as (m & Hm); [done| |by eauto].
  split; [done|]. split; [|intros; lia].
  intros j y E. apply list_lookup_singleton_Some in E as [_ <-].
  destruct (fo_total _ O x x Hx Hx); done.
Qed.

(** C6: for a node whose children have all been visited, [ucb1] gives
    each child [c] the score
    [c.wins / c.visits + w * sqrt(log(node.visits) / c.visits)], and
    [best_child] returns the child with the greatest score, the first one
    in [children] among equals: no child scores higher and every earlier
    child scores strictly lower.  The scores are assumed to be ordered by
    the float comparison (none of them NaN). *)
Theorem best_child_first_maximum h node nd (w : F) :
  h !! node = Some nd ->
  children nd <> [] ->
  (forall c, c ∈ children nd ->
     exists cn, h !! c = Some cn /\ parent cn = Some node /\ 0 < visits cn) ->
  float_ordered (score h w nd <$> children nd) ->
  (forall c cn, c ∈ children nd -> h !! c = Some cn ->
     ucb1 h c w = Ok (score h w nd c) /\
     score h w nd c =
       fadd (fdiv (of_int (wins cn)) (of_int (visits cn)))
            (fmul w (np_sqrt (fdiv (np_log (of_int (visits nd))) (of_int (visits cn)))))) /\
  exists i c,
    best_child h node w = Ok c /\ children nd !! i = Some c /\
    (forall j c', children nd !! j = Some c' ->
       fle (score h w nd c') (score h w nd c) = true) /\
    (forall j c', j < i -> children nd !! j = Some c' ->
       fle (score h w nd c) (score h w nd c') = false).
Proof.
  intros Hnode Hne Hvis O.
  assert (Hucb : forall c, c ∈ children nd -> ucb1 h c w = Ok (score h w nd c)).
  { intros c Hc. destruct (Hvis c Hc) as (cn & Hcn & Hp & Hv).
    unfold ucb1, score, visits_at. rewrite Hcn. simpl.
    apply get_Ok in Hcn, Hnode. rewrite Hcn. simpl.
    destruct (visits cn =? 0) eqn:Ez; [apply Nat.eqb_eq in Ez; lia|].
    by rewrite Hp, Hnode. }
  split.
  { intros c cn Hc Hcn. split; [by apply Hucb|].
    unfold score, visits_at, ucb1_value. by rewrite Hcn. }
  destruct (np_argmax_spec (score h w nd <$> children nd)) as (r & m & Ea & Hr & Hle & Hlt);
    [by destruct (children nd)|done|].
  rewrite list_lookup_fmap in Hr.
  destruct (children nd !! r) as [c|] eqn:Hc; [|done]. injection Hr as <-.
  exists r, c. repeat split.
  - unfold best_child. apply get_Ok in Hnode. rewrite Hnode. simpl.
    rewrite (mapM_Ok _ (score h w nd)) by done. simpl. rewrite Ea. simpl.
    by rewrite Hc.
  - done.
  - intros j c' E. apply (Hle j). by rewrite list_lookup_fmap, E.
  - intros j c' Hj E. apply (Hlt j); [done|]. by rewrite list_lookup_fmap, E.
Qed.

End EngineFacts.

(** * Runs on closed inputs *)

(** The floats of the runs are binary64. *)
#[local] Existing Instance Binary64.ops.

(** *** Backpropagation on the bundled game *)

(** C1 on a root with player 1 to move and its child, reached by player 1's
    move, with player 2 to move.  The outcome is a win of player 1, the
    opponent of the child's [current_player]: under the attribution rule of
    the specification the child's [wins] go up and the root's stay.
    [_backpropagate] compares the outcome with the node's own
    [current_player]: the child's [wins] stay at 0 and the root's go to 1. *)
Lemma backpropagate_credits_player_to_move :
  let h := [mkNode go1 None [1] 0 0; mkNode go1_full (Some 0) [] 0 0] in
  GoGame.play go1 (0, 0) = Ok go1_full /\
  GoGame.opponent (GoGame.current_player go1_full) = 1%Z /\
  GoGame.current_player go1 = 1%Z /\
  _backpropagate (G := GoGame.ops go1) 2 h (Some 1) 1%Z
    = Ok [mkNode go1 None [1] 1 1; mkNode go1_full (Some 0) [] 0 1].
Proof. vm_compute. repeat split. Qed.

(** *** Expansion on the bundled game *)

(** C2 on the 2 x 2 board: the second expansion of the root plays the move
    [(0, 0)] again, and after four expansions the root is fully expanded
    with four children that all hold the position after [(0, 0)]. *)
Lemma expand_reuses_first_move :
  let h0 := initial_heap go2 in
  GoGame.get_legal_moves go2 = Ok [(0, 0); (0, 1); (1, 0); (1, 1)] /\
  GoGame.play go2 (0, 0) = Ok go2_first /\
  (exists h2, expand_root (H := GoGame.ops go2) 2 h0 = Ok h2 /\
     child_states h2 0 = [Some go2_first; Some go2_first]) /\
  (exists h4, expand_root (H := GoGame.ops go2) 4 h0 = Ok h4 /\
     is_fully_expanded (G := GoGame.ops go2) h4 0 = Ok true /\
     child_states h4 0 = [Some go2_first; Some go2_first; Some go2_first; Some go2_first]).
Proof.
  vm_compute. repeat split.
  - eexists. split; reflexivity.
  - eexists. repeat split; reflexivity.
Qed.

(** *** A rollout on a node *)

(** C3 on the 2 x 2 board, with states that answer [is_terminal()]: the
    first iteration expands the root into node 1, whose state is the
    position after [(0, 0)]; the rollout then plays on that state, and
    after the iteration node 1 holds the full board the rollout ended in. *)
Lemma rollout_overwrites_node_state :
  let h0 := initial_heap go2 in
  (exists h1, _expand (G := GoState.ops go2) h0 0 = Ok (h1, 1) /\
     state <$> h1 !! 1 = Some go2_first) /\
  (exists h g', iteration (G := GoState.ops go2) (FO := Binary64.ops) 10 rng0 h0 = Ok (h, g', 1) /\
     state <$> h !! 1 = Some (GoGame.mk 2 [[1%Z; 2%Z]; [2%Z; 1%Z]] 1%Z)).
Proof.
  split.
  - eexists. split; vm_compute; reflexivity.
  - eexists _, _. split; vm_compute; reflexivity.
Qed.

(** *** Searches from a terminal state and with no simulations *)

(** C4 fails on the full 1 x 1 board with three simulations.  With states
    that answer [is_terminal()], the three iterations run (the root ends
    with three visits and no child) and [search] raises the [ValueError] of
    [np.argmax]; on the bundled game the first rollout raises [TypeError].
    Neither is [InvalidStartState]. *)
Lemma search_terminal_root_counterexample :
  game_is_terminal (GameOps := GoState.ops go1_full) go1_full = Ok true /\
  iterations (G := GoState.ops go1_full) (FO := Binary64.ops) 3 10 rng0 (initial_heap go1_full)
    = Ok ([mkNode go1_full None [] 0 3], rng0, [0; 0; 0]) /\
  search (G := GoState.ops go1_full) (FO := Binary64.ops) 10 rng0 3 go1_full
    = Raise ValueError /\
  search (G := GoGame.ops go1_full) (FO := Binary64.ops) 10 rng0 3 go1_full
    = Raise TypeError /\
  search (G := GoState.ops go1_full) (FO := Binary64.ops) 10 rng0 3 go1_full
    <> Raise InvalidStartState.
Proof. vm_compute. repeat split. discriminate. Qed.

(** [search_terminal_root] on the full 1 x 1 board. *)
Lemma search_terminal_root_witness :
  (exists w, iterations (G := GoState.ops go1_full) (FO := Binary64.ops)
               (Z.to_nat 3) 10 rng0 (initial_heap go1_full)
     = Ok ([mkNode go1_full None [] w (Z.to_nat 3)], rng0, replicate (Z.to_nat 3) 0)) /\
  search (G := GoState.ops go1_full) (FO := Binary64.ops) 10 rng0 3 go1_full
    = Raise ValueError.
Proof.
  apply (search_terminal_root (G := GoState.ops go1_full) (FO := Binary64.ops)
           10 rng0 3 go1_full 1%Z); vm_compute; reflexivity.
Defined.

(** C5 fails on the script's own game with [n_simulations = 0]: [search]
    raises the [ValueError] of [np.argmax], not [InvalidConfiguration]. *)
Lemma search_nonpositive_counterexample :
  search (G := GoGame.ops (GoGame.init 9)) (FO := Binary64.ops) 10 rng0 0 (GoGame.init 9)
    = Raise ValueError /\
  search (G := GoGame.ops (GoGame.init 9)) (FO := Binary64.ops) 10 rng0 0 (GoGame.init 9)
    <> Raise InvalidConfiguration.
Proof. split; [vm_compute; reflexivity|]. vm_compute. discriminate. Qed.

(** [search_nonpositive] at [n_simulations = -2]. *)
Lemma search_nonpositive_witness :
  (-2 <= 0)%Z /\
  iterations (G := GoGame.ops go2) (FO := Binary64.ops) (Z.to_nat (-2)) 10 rng0 (initial_heap go2)
    = Ok (initial_heap go2, rng0, []) /\
  search (G := GoGame.ops go2) (FO := Binary64.ops) 10 rng0 (-2) go2 = Raise ValueError.
Proof.
  split; [lia|].
  apply (search_nonpositive (G := GoGame.ops go2) (FO := Binary64.ops) 10 rng0 (-2) go2).
  lia.
Defined.

(** *** Completed searches *)

(** [root_visits_after_search] on six simulations from the empty 2 x 2
    board. *)
Lemma root_visits_after_search_witness :
  exists best h,
    search (G := GoState.ops go2) (FO := Binary64.ops) 10 rng0 6 go2 = Ok (best, h) /\
    exists r, h !! 0 = Some r /\ Z.of_nat (visits r) = 6%Z.
Proof.
  eexists _, _. split; [vm_compute; reflexivity|].
  eapply (root_visits_after_search (G := GoState.ops go2) (FO := Binary64.ops) 10 rng0 6 go2);
    [lia|vm_compute; reflexivity].
Defined.


(** C9 fails inside a backpropagation.  In the first iteration on the
    1 x 1 board the root is expanded into node 1, the rollout returns, and
    the first turn of the loop of [_backpropagate] gives node 1 its visit:
    until the next turn reaches the root, the root has 0 visits and its
    child has 1. *)
Lemma visits_cover_children_counterexample :
  let h0 := initial_heap go1 in
  exists h1 h2 h3,
    _expand (G := GoState.ops go1) h0 0 = Ok (h1, 1) /\
    random_policy (G := GoState.ops go1) 10 rng0 go1_full = Ok (go1_full, rng0, 1%Z) /\
    state <$> h1 !! 1 = Some go1_full /\
    backprop_step (G := GoState.ops go1) h1 1 1%Z = Ok (h2, Some 0) /\
    (exists r, h2 !! 0 = Some r /\ visits r = 0 /\ sum_visits h2 (children r) = 1) /\
    _backpropagate (G := GoState.ops go1) 1 h2 (Some 0) 1%Z = Ok h3 /\
    iteration (G := GoState.ops go1) (FO := Binary64.ops) 10 rng0 h0 = Ok (h3, rng0, 1).
Proof.
  eexists _, _, _. split; [vm_compute; reflexivity|].
  split; [vm_compute; reflexivity|]. split; [vm_compute; reflexivity|].
  split; [vm_compute; reflexivity|].
  split; [eexists; split; [vm_compute; reflexivity|]; split; vm_compute; reflexivity|].
  split; vm_compute; reflexivity.
Qed.

(** [visits_cover_children] at the point where C9 fails, inside the first
    backpropagation on the 1 x 1 board: node 1 has its visit, the root is
    the pending update, one visit short of its child and no more; and on
    the heap left by six iterations from the empty 2 x 2 board. *)
Lemma visits_cover_children_witness :
  (search_point (G := GoState.ops go1) (FO := Binary64.ops) go1
     (first_walk_heap, InBackprop (Some 0) 1%Z) /\
   forall N (nd : Node GoGame.t), first_walk_heap !! N = Some nd ->
     (pending (InBackprop (Some 0) 1%Z) <> Some N ->
      sum_visits first_walk_heap (children nd) <= visits nd) /\
     sum_visits first_walk_heap (children nd) <= visits nd + 1) /\
  exists h g' tr,
    iterations (G := GoState.ops go2) (FO := Binary64.ops) 6 10 rng0 (initial_heap go2)
      = Ok (h, g', tr) /\
    search_point (G := GoState.ops go2) (FO := Binary64.ops) go2 (h, Between) /\
    (forall N (nd : Node GoGame.t), h !! N = Some nd ->
       visits nd = sum_visits h (children nd) + starts tr N) /\
    (0 ∉ tr -> forall r : Node GoGame.t, h !! 0 = Some r ->
       visits r = sum_visits h (children r)).
Proof.
  assert (P : search_point (G := GoState.ops go1) (FO := Binary64.ops) go1
                (first_walk_heap, InBackprop (Some 0) 1%Z)).
  { unfold search_point.
    eapply rtc_l; [eapply (step_descend (G := GoState.ops go1) _ 0 _ false);
                   [vm_compute; reflexivity|reflexivity|vm_compute; reflexivity
                   |vm_compute; reflexivity]|].
    eapply rtc_l; [eapply (step_result (G := GoState.ops go1) _ 1 _ 1%Z);
                   [reflexivity|vm_compute; reflexivity|vm_compute; reflexivity]|].
    eapply rtc_l; [eapply (step_walk (G := GoState.ops go1) _ 1); reflexivity|].
    apply rtc_refl. }
  split.
  - split; [exact P|].
    apply (proj1 (visits_cover_children (G := GoState.ops go1) (FO := Binary64.ops) go1)
             first_walk_heap (InBackprop (Some 0) 1%Z) P).
  - eexists _, _, _. split; [vm_compute; reflexivity|].
    eapply (proj2 (visits_cover_children (G := GoState.ops go2) (FO := Binary64.ops) go2)
              10 6 rng0).
    vm_compute; reflexivity.
Defined.

(** *** Selection on binary64 *)

(** The two scores of [scored_heap] under the default weight are ordered. *)
Lemma scored_heap_ordered :
  float_ordered (FO := Binary64.ops)
    (score (FO := Binary64.ops) scored_heap (weight_default (FloatArith := Binary64.ops))
           scored_root <$> children scored_root).
Proof.
  split.
  - intros x Hx. vm_compute in Hx.
    repeat (apply elem_of_cons in Hx as [->|Hx]; [reflexivity|]).
    by apply elem_of_nil in Hx.
  - intros x y Hx Hy. vm_compute in Hx, Hy.
    repeat (apply elem_of_cons in Hx as [->|Hx];
            [repeat (apply elem_of_cons in Hy as [->|Hy]; [vm_compute; auto|]);
             by apply elem_of_nil in Hy|]).
    by apply elem_of_nil in Hx.
  - intros x y z Hx Hy Hz. vm_compute in Hx, Hy, Hz.
    repeat (apply elem_of_cons in Hx as [->|Hx];
            [repeat (apply elem_of_cons in Hy as [->|Hy];
                     [repeat (apply elem_of_cons in Hz as [->|Hz]; [vm_compute; auto|]);
                      by apply elem_of_nil in Hz|]);
             by apply elem_of_nil in Hy|]).
    by apply elem_of_nil in Hx.
Qed.

Example best_child_scored_heap :
  best_child (FO := Binary64.ops) scored_heap 0 (weight_default (FloatArith := Binary64.ops))
    = Ok 2.
Proof. vm_compute. reflexivity. Qed.

(** [best_child_first_maximum] at the root of [scored_heap]. *)
Lemma best_child_first_maximum_witness :
  let w := weight_default (FloatArith := Binary64.ops) in
  let sc := score (FO := Binary64.ops) scored_heap w scored_root in
  (forall c (cn : Node GoGame.t), c ∈ children scored_root -> scored_heap !! c = Some cn ->
     ucb1 (FO := Binary64.ops) scored_heap c w = Ok (sc c) /\
     sc c =
       fadd
         (fdiv (of_int (wins cn)) (of_int (visits cn)))
         (fmul w (np_sqrt (fdiv (np_log (of_int (visits scored_root)))
                                (of_int (visits cn)))))) /\
  exists i c,
    best_child (FO := Binary64.ops) scored_heap 0 w = Ok c /\
    children scored_root !! i = Some c /\
    (forall j c', children scored_root !! j = Some c' ->
       fle (FloatArith := Binary64.ops) (sc c') (sc c) = true) /\
    (forall j c', j < i -> children scored_root !! j = Some c' ->
       fle (FloatArith := Binary64.ops) (sc c) (sc c') = false).
Proof.
  apply (best_child_first_maximum (FO := Binary64.ops) scored_heap 0 scored_root
           (weight_default (FloatArith := Binary64.ops))).
  - reflexivity.
  - discriminate.
  - intros c Hc. vm_compute in Hc.
    apply elem_of_cons in Hc as [->|Hc]; [eexists; repeat split; simpl; lia|].
    apply elem_of_cons in Hc as [->|Hc]; [eexists; repeat split; simpl; lia|].
    by apply elem_of_nil in Hc.
  - apply scored_heap_ordered.
Defined.

(** *** The bundled game under the engine *)

(** The script itself: [MCTS(game, n_simulations=1000).search(game)] with
    [game = GoGame(board_size=9)] stops in the rollout of its first
    iteration. *)
Example script_run fuel :
  search (G := GoGame.ops (GoGame.init 9)) fuel rng0 1000 (GoGame.init 9) = Raise TypeError.
Proof. destruct fuel; vm_compute; reflexivity. Qed.

Lemma GoGame_random_policy fuel g (game s : GoGame.t) :
  random_policy (G := GoGame.ops game) fuel g s = Raise TypeError.
Proof. by destruct fuel. Qed.

(** C10: [random_policy] calls [state.is_terminal()] with no argument, and
    [GoGame.is_terminal] takes one: on every [GoGame] state the rollout
    raises [TypeError] and returns no outcome, and so no iteration of
    [search] on the bundled game, from any tree, runs to its end. *)
Theorem bundled_game_rollout_raises :
  (call0 GoGame.is_terminal = fun _ => Raise TypeError) /\
  (call0 GoGame.get_result = fun _ => Raise TypeError) /\
  (forall fuel g (game s : GoGame.t),
     random_policy (G := GoGame.ops game) fuel g s = Raise TypeError) /\
  (forall F (FO : FloatArith F) fuel g (game : GoGame.t) (h : list (Node GoGame.t)),
     is_Ok (iteration (G := GoGame.ops game) fuel g h) = false) /\
  (forall F (FO : FloatArith F) fuel g (game s : GoGame.t) (n : nat),
     is_Ok (search (G := GoGame.ops game) fuel g (Z.of_nat (S n)) s) = false).
Proof.
  split; [done|]. split; [done|]. split; [apply GoGame_random_policy|].
  assert (Hit : forall F (FO : FloatArith F) fuel g (game : GoGame.t) (h : list (Node GoGame.t)),
             is_Ok (iteration (G := GoGame.ops game) fuel g h) = false).
  { intros F FO fuel g game h.
    destruct (iteration fuel g h) as [[[h' g'] n]| |] eqn:E; [exfalso|done|done].
    unfold iteration in E.
    apply bind_Ok in E as (node & _ & E).
    apply bind_Ok in E as (nd & _ & E).
    apply bind_Ok in E as (t & _ & E).
    apply bind_Ok in E as ([h1 node1] & _ & E).
    apply bind_Ok in E as (nd1 & _ & E).
    apply bind_Ok in E as (x & Hx & _).
    by rewrite GoGame_random_policy in Hx. }
  split; [exact Hit|].
  intros F FO fuel g game s n. unfold search.
  rewrite Nat2Z.id. simpl.
  specialize (Hit F FO fuel g game (initial_heap s)).
  destruct (iteration fuel g (initial_heap s)); [discriminate|done|done].
Qed.

(** * The bundled game on its own *)

Lemma go_cells_elem n p : p ∈ go_cells n <-> p.1 < n /\ p.2 < n.
Proof.
  unfold go_cells. rewrite list_elem_of_bind. split.
  - intros (x & Hp & Hx). apply list_elem_of_bind in Hp as (y & Hp & Hy).
    apply list_elem_of_singleton in Hp as ->. apply elem_of_seq in Hx, Hy. simpl. lia.
  - intros [Hx Hy]. exists p.1. split; [|apply elem_of_seq; lia].
    apply list_elem_of_bind. exists p.2. split; [|apply elem_of_seq; lia].
    destruct p. by apply list_elem_of_singleton.
Qed.

Lemma go_cells_NoDup n : NoDup (go_cells n).
Proof.
  unfold go_cells. apply NoDup_bind; [| |apply NoDup_seq].
  - intros x1 x2 p _ _ H1 H2.
    apply list_elem_of_bind in H1 as (y1 & H1 & _), H2 as (y2 & H2 & _).
    apply list_elem_of_singleton in H1, H2. congruence.
  - intros x _. apply NoDup_bind; [| |apply NoDup_seq].
    + intros y1 y2 p _ _ H1 H2. apply list_elem_of_singleton in H1, H2. congruence.
    + intros y _. apply NoDup_singleton.
Qed.

Lemma go_cell_at (s : GoGame.t) x y :
  go_wf s -> x < GoGame.board_size s -> y < GoGame.board_size s ->
  exists v, GoGame.cell (GoGame.board s) x y = Ok v /\ go_at s (x, y) = Some v.
Proof.
  intros [Hlen Hrows] Hx Hy. unfold GoGame.cell, go_at. simpl.
  destruct (GoGame.board s !! x) as [row|] eqn:Hrow.
  - rewrite Forall_lookup in Hrows. specialize (Hrows x row Hrow). simpl.
    destruct (row !! y) as [v|] eqn:Hv; [eauto|].
    apply lookup_ge_None in Hv. lia.
  - apply lookup_ge_None in Hrow. lia.
Qed.

Lemma concat_filter_cells (P : nat * nat -> Prop) `{!forall p, Decision (P p)} (xs ys : list nat) :
  concat ((fun x => concat ((fun y => if decide (P (x, y)) then [(x, y)] else []) <$> ys)) <$> xs)
  = filter P (x ← xs; y ← ys; [(x, y)]).
Proof.
  induction xs as [|x xs IH]; csimpl; [done|].
  rewrite filter_app, IH. f_equal.
  clear IH. induction ys as [|y ys IH]; csimpl; [done|].
  rewrite filter_cons, IH. by destruct (decide (P (x, y))).
Qed.

Lemma go_legal_moves_filter (s : GoGame.t) :
  go_wf s ->
  GoGame.get_legal_moves s = Ok (filter (go_empty s) (go_cells (GoGame.board_size s))).
Proof.
  intros W. unfold GoGame.get_legal_moves, go_cells.
  rewrite <- concat_filter_cells.
  rewrite (mapM_Ok _
    (fun x => concat ((fun y => if decide (go_empty s (x, y)) then [(x, y)] else [])
                        <$> seq 0 (GoGame.board_size s)))); [done|].
  intros x Hx. apply elem_of_seq in Hx.
  rewrite (mapM_Ok _ (fun y => if decide (go_empty s (x, y)) then [(x, y)] else [])); [done|].
  intros y Hy. apply elem_of_seq in Hy.
  destruct (go_cell_at s x y W) as (v & -> & Hv); [lia|lia|]. simpl.
  destruct (decide (go_empty s (x, y))) as [E|E]; unfold go_empty in E; rewrite Hv in E.
  - injection E as ->. done.
  - destruct (v =? 0)%Z eqn:Ev; [|done]. apply Z.eqb_eq in Ev as ->. done.
Qed.

(** On a well-formed board [get_legal_moves] does not raise: it returns
    the cells that hold [0], each once, row by row. *)
Theorem go_legal_moves_are_empty_cells (s : GoGame.t) :
  go_wf s ->
  exists moves,
    GoGame.get_legal_moves s = Ok moves /\
    moves = filter (go_empty s) (go_cells (GoGame.board_size s)) /\
    NoDup moves /\
    forall p, p ∈ moves <->
      p.1 < GoGame.board_size s /\ p.2 < GoGame.board_size s /\ go_at s p = Some 0%Z.
Proof.
  intros W. eexists. split; [by apply go_legal_moves_filter|]. split; [done|]. split.
  - apply NoDup_filter, go_cells_NoDup.
  - intros p. rewrite list_elem_of_filter, go_cells_elem. unfold go_empty. tauto.
Qed.

Lemma go_cells_length n : length (go_cells n) = n * n.
Proof.
  unfold go_cells.
  assert (Hin : forall (x : nat) (ys : list nat),
            length (y ← ys; [(x, y)]) = length ys).
  { intros x ys. induction ys as [|y ys IH]; csimpl; [done|]. by rewrite IH. }
  assert (Hout : forall (xs ys : list nat),
            length (x ← xs; y ← ys; [(x, y)]) = length xs * length ys).
  { intros xs ys. induction xs as [|x xs IH]; csimpl; [done|].
    by rewrite length_app, Hin, IH. }
  by rewrite Hout, length_seq.
Qed.

Lemma filter_all {A} (P : A -> Prop) `{!forall x, Decision (P x)} (l : list A) :
  (forall x, x ∈ l -> P x) -> filter P l = l.
Proof.
  induction l as [|x l IH]; intros HP; [done|].
  rewrite filter_cons_True by (apply HP, elem_of_cons; by left).
  rewrite IH; [done|]. intros y Hy. apply HP, elem_of_cons. by right.
Qed.

Lemma go_init_wf n : go_wf (GoGame.init n).
Proof.
  split; simpl.
  - apply length_replicate.
  - apply Forall_replicate, length_replicate.
Qed.

Lemma go_init_at n p : p.1 < n -> p.2 < n -> go_at (GoGame.init n) p = Some 0%Z.
Proof.
  intros Hx Hy. unfold go_at. simpl.
  rewrite (proj2 (lookup_replicate n _ _ p.1)) by done. simpl.
  by apply lookup_replicate.
Qed.

(** [GoGame(n)] is a well-formed board with player 1 to move on which all
    [n * n] cells are legal moves, row by row. *)
Theorem go_init_all_cells_legal n :
  go_wf (GoGame.init n) /\
  GoGame.current_player (GoGame.init n) = 1%Z /\
  GoGame.get_legal_moves (GoGame.init n) = Ok (go_cells n) /\
  length (go_cells n) = n * n.
Proof.
  split; [apply go_init_wf|]. split; [done|]. split; [|apply go_cells_length].
  rewrite go_legal_moves_filter by apply go_init_wf. simpl.
  rewrite filter_all; [done|].
  intros p Hp. apply go_cells_elem in Hp as [Hx Hy]. by apply go_init_at.
Qed.

Lemma go_play_in_range (s : GoGame.t) x y :
  go_wf s -> x < GoGame.board_size s -> y < GoGame.board_size s ->
  exists row,
    GoGame.board s !! x = Some row /\ length row = GoGame.board_size s /\
    GoGame.play s (x, y) =
      Ok (GoGame.mk (GoGame.board_size s)
            (<[x := <[y := GoGame.current_player s]> row]> (GoGame.board s))
            (3 - GoGame.current_player s)%Z).
Proof.
  intros [Hlen Hrows] Hx Hy. unfold GoGame.play.
  destruct (GoGame.board s !! x) as [row|] eqn:Hrow.
  - rewrite Forall_lookup in Hrows. specialize (Hrows x row Hrow). simpl in Hrows.
    exists row. split; [done|]. split; [done|].
    rewrite decide_True; [done|lia].
  - apply lookup_ge_None in Hrow. lia.
Qed.

Lemma go_play_out_of_range (s : GoGame.t) x y :
  go_wf s -> ~ (x < GoGame.board_size s /\ y < GoGame.board_size s) ->
  GoGame.play s (x, y) = Raise IndexError.
Proof.
  intros [Hlen Hrows] Hout. unfold GoGame.play.
  destruct (GoGame.board s !! x) as [row|] eqn:Hrow; [|done].
  rewrite Forall_lookup in Hrows. specialize (Hrows x row Hrow). simpl in Hrows.
  apply lookup_lt_Some in Hrow.
  rewrite decide_False; [done|lia].
Qed.

Lemma go_play_effect_aux (s : GoGame.t) x y :
  go_wf s ->
  (x < GoGame.board_size s /\ y < GoGame.board_size s ->
   exists s',
     GoGame.play s (x, y) = Ok s' /\
     go_wf s' /\
     GoGame.board_size s' = GoGame.board_size s /\
     GoGame.current_player s' = (3 - GoGame.current_player s)%Z /\
     go_at s' (x, y) = Some (GoGame.current_player s) /\
     forall q, q <> (x, y) -> go_at s' q = go_at s q) /\
  (~ (x < GoGame.board_size s /\ y < GoGame.board_size s) ->
   GoGame.play s (x, y) = Raise IndexError).
Proof.
  intros W. split; [|by apply go_play_out_of_range].
  intros [Hx Hy]. destruct (go_play_in_range s x y W Hx Hy) as (row & Hrow & Hlen & ->).
  destruct W as [Wl Wr].
  eexists. split; [done|]. split; [|split; [done|split; [done|split]]].
  - split; simpl.
    + by rewrite length_insert.
    + apply Forall_insert; [done|]. by rewrite length_insert.
  - unfold go_at. simpl. rewrite list_lookup_insert_eq by lia. simpl.
    by rewrite list_lookup_insert_eq by lia.
  - intros [qx qy] Hq. unfold go_at. simpl.
    destruct (decide (qx = x)) as [->|Hne].
    + rewrite list_lookup_insert_eq by lia. rewrite Hrow. simpl.
      rewrite list_lookup_insert_ne; [done|]. congruence.
    + by rewrite list_lookup_insert_ne.
Qed.







Lemma filter_remove_length {A} `{EqDecision A} (m : A) (l : list A) :
  NoDup l -> m ∈ l -> S (length (filter (fun q => q <> m) l)) = length l.
Proof.
  induction l as [|x l IH]; intros ND Hin; [by apply elem_of_nil in Hin|].
  apply NoDup_cons in ND as [Hx ND].
  destruct (decide (x = m)) as [->|Hne].
  - rewrite filter_cons_False by (intros E; by apply E).
    rewrite filter_all; [done|]. intros y Hy ->. done.
  - rewrite filter_cons_True by done. simpl. f_equal. apply IH; [done|].
    apply elem_of_cons in Hin as [->|Hin]; done.
Qed.

Lemma go_play_consumes_move_aux (s : GoGame.t) moves m :
  go_wf s ->
  GoGame.current_player s <> 0%Z ->
  GoGame.get_legal_moves s = Ok moves ->
  m ∈ moves ->
  exists s',
    GoGame.play s m = Ok s' /\
    GoGame.get_legal_moves s' = Ok (filter (fun q => q <> m) moves) /\
    S (length (filter (fun q => q <> m) moves)) = length moves.
Proof.
  intros W Hcp Hmoves Hm. destruct m as [x y].
  rewrite go_legal_moves_filter in Hmoves by done. injection Hmoves as <-.
  pose proof Hm as Hm'.
  apply list_elem_of_filter in Hm as (Hat & Hc). apply go_cells_elem in Hc as [Hx Hy].
  simpl in Hx, Hy.
  destruct (proj1 (go_play_effect_aux s x y W) (conj Hx Hy))
    as (s' & Hplay & W' & Hsize & _ & Hcell & Hother).
  exists s'. split; [done|].
  split; [|apply filter_remove_length; [apply NoDup_filter, go_cells_NoDup|done]].
  rewrite go_legal_moves_filter by done. rewrite Hsize, list_filter_filter.
  f_equal. apply list_filter_iff. intros q. unfold go_empty.
  destruct (decide (q = (x, y))) as [->|Hq].
  - rewrite Hcell. split; [|intros [Hne _]; done]. intros [= E']. done.
  - rewrite (Hother q Hq). tauto.
Qed.

(** Playing a legal move with a player other than [0] to move uses the
    move up: the legal moves afterwards are the ones before without the
    move played, in the same order, one fewer. *)
Theorem go_play_consumes_move (s : GoGame.t) moves m :
  go_wf s ->
  GoGame.current_player s <> 0%Z ->
  GoGame.get_legal_moves s = Ok moves ->
  m ∈ moves ->
  exists s',
    GoGame.play s m = Ok s' /\
    GoGame.get_legal_moves s' = Ok (filter (fun q => q <> m) moves) /\
    S (length (filter (fun q => q <> m) moves)) = length moves.
Proof. apply go_play_consumes_move_aux. Qed.

Lemma go_play_inv (s s' : GoGame.t) m :
  go_wf s -> GoGame.play s m = Ok s' ->
  go_wf s' /\
  GoGame.current_player s' = (3 - GoGame.current_player s)%Z /\
  forall q v, go_at s' q = Some v -> v = GoGame.current_player s \/ go_at s q = Some v.
Proof.
  intros W Hplay. destruct m as [x y].
  destruct (go_play_effect_aux s x y W) as [Hin Hout].
  destruct (decide (x < GoGame.board_size s /\ y < GoGame.board_size s)) as [Hr|Hr].
  - destruct (Hin Hr) as (s1 & E & W' & _ & Hcp & Hcell & Hother).
    assert (s1 = s') by congruence. subst s1.
    split; [done|]. split; [done|]. intros q v Hq.
    destruct (decide (q = (x, y))) as [->|Hne].
    + left. congruence.
    + right. by rewrite <- (Hother q Hne).
  - rewrite (Hout Hr) in Hplay. discriminate.
Qed.

Lemma go_reachable_invariant_aux (s : GoGame.t) :
  go_reachable s ->
  go_wf s /\
  (GoGame.current_player s = 1%Z \/ GoGame.current_player s = 2%Z) /\
  forall p v, go_at s p = Some v -> v = 0%Z \/ v = 1%Z \/ v = 2%Z.
Proof.
  induction 1 as [n|s m s' _ (W & Hcp & Hcells) Hplay].
  - split; [apply go_init_wf|]. split; [by left|].
    intros p v Hv. left.
    assert (Hin : p.1 < n /\ p.2 < n).
    { unfold go_at in Hv. simpl in Hv.
      destruct (replicate n (replicate n 0%Z) !! p.1) as [row|] eqn:Hrow; [|done].
      apply lookup_replicate in Hrow as [-> Hx]. simpl in Hv.
      apply lookup_replicate in Hv as [_ Hy]. done. }
    rewrite go_init_at in Hv by tauto. congruence.
  - destruct (go_play_inv s s' m W Hplay) as (W' & Hcp' & Hcells').
    split; [done|]. split; [lia|].
    intros p v Hv. destruct (Hcells' p v Hv) as [->|Hold]; [lia|eauto].
Qed.

(** Every position of a game is a well-formed board with player 1 or 2 to
    move and cells holding 0, 1 or 2. *)
Theorem go_reachable_invariant (s : GoGame.t) :
  go_reachable s ->
  go_wf s /\
  (GoGame.current_player s = 1%Z \/ GoGame.current_player s = 2%Z) /\
  forall p v, go_at s p = Some v -> v = 0%Z \/ v = 1%Z \/ v = 2%Z.
Proof. apply go_reachable_invariant_aux. Qed.

Lemma go_terminal_iff_full_aux (game s : GoGame.t) :
  go_wf s ->
  exists b,
    call1 GoGame.is_terminal game s = Ok b /\
    (b = true <-> forall p, go_at s p <> Some 0%Z).
Proof.
  intros W. simpl. rewrite go_legal_moves_filter by done. simpl.
  eexists. split; [done|].
  rewrite Nat.eqb_eq, length_zero_iff_nil. split.
  - intros Hnil p Hp.
    assert (Hin : p ∈ filter (go_empty s) (go_cells (GoGame.board_size s))).
    { apply list_elem_of_filter. split; [done|]. apply go_cells_elem.
      unfold go_at in Hp. destruct W as [Wl Wr].
      destruct (GoGame.board s !! p.1) as [row|] eqn:Hrow; [|done]. simpl in Hp.
      rewrite Forall_lookup in Wr. specialize (Wr _ _ Hrow). simpl in Wr.
      apply lookup_lt_Some in Hrow, Hp. lia. }
    rewrite Hnil in Hin. by apply elem_of_nil in Hin.
  - intros Hfull. destruct (filter _ _) as [|p l] eqn:E; [done|].
    assert (Hin : p ∈ filter (go_empty s) (go_cells (GoGame.board_size s))).
    { rewrite E. apply elem_of_cons. by left. }
    apply list_elem_of_filter in Hin as [Hp _]. by apply Hfull in Hp.
Qed.

(** [is_terminal], called with a state, answers [True] exactly when no cell
    of the state's board holds [0]; the object it is called on plays no
    part. *)
Theorem go_terminal_iff_full (game s : GoGame.t) :
  go_wf s ->
  exists b,
    call1 GoGame.is_terminal game s = Ok b /\
    (b = true <-> forall p, go_at s p <> Some 0%Z).
Proof. apply go_terminal_iff_full_aux. Qed.

Lemma go_board_elem (s : GoGame.t) v :
  v ∈ concat (GoGame.board s) <-> exists p, go_at s p = Some v.
Proof.
  rewrite list_elem_of_In, in_concat. split.
  - intros (row & Hrow & Hv). apply list_elem_of_In, list_elem_of_lookup in Hrow as [x Hx].
    apply list_elem_of_In, list_elem_of_lookup in Hv as [y Hy].
    exists (x, y). unfold go_at. simpl. by rewrite Hx.
  - intros (p & Hp). unfold go_at in Hp.
    destruct (GoGame.board s !! p.1) as [row|] eqn:Hrow; [|done]. simpl in Hp.
    exists row. split; apply list_elem_of_In; by eapply list_elem_of_lookup_2.
Qed.

Lemma sum_nonneg_pos (l : list Z) :
  (forall v, v ∈ l -> (0 <= v)%Z) ->
  (0 <= foldr Z.add 0%Z l)%Z /\
  ((0 < foldr Z.add 0%Z l)%Z <-> exists v, v ∈ l /\ v <> 0%Z).
Proof.
  induction l as [|x l IH]; intros Hpos; simpl.
  - split; [lia|]. split; [lia|]. intros (v & Hv & _). by apply elem_of_nil in Hv.
  - destruct IH as [IH0 IH1]; [intros v Hv; apply Hpos, elem_of_cons; by right|].
    assert (Hx : (0 <= x)%Z) by (apply Hpos, elem_of_cons; by left).
    split; [lia|]. split.
    + intros Hsum. destruct (decide (x = 0%Z)) as [->|Hne].
      * destruct (proj1 IH1) as (v & Hv & Hv0); [lia|].
        exists v. split; [apply elem_of_cons; by right|done].
      * exists x. split; [apply elem_of_cons; by left|done].
    + intros (v & Hv & Hv0). apply elem_of_cons in Hv as [->|Hv]; [lia|].
      assert (0 < foldr Z.add 0 l)%Z by (apply IH1; eauto). lia.
Qed.

(** [get_result] names player 1 the winner of every position with a stone
    on the board, whoever placed it, and player 2 only of a position
    without any; so every finished game on a board of side at least 1 is
    won by player 1. *)
Theorem go_result_is_player_one (game s : GoGame.t) :
  go_reachable s ->
  ((exists p v, go_at s p = Some v /\ v <> 0%Z) ->
   call1 GoGame.get_result game s = Ok 1%Z) /\
  ((forall p v, go_at s p = Some v -> v = 0%Z) ->
   call1 GoGame.get_result game s = Ok 2%Z) /\
  (0 < GoGame.board_size s -> call1 GoGame.is_terminal game s = Ok true ->
   call1 GoGame.get_result game s = Ok 1%Z).
Proof.
  intros R. destruct (go_reachable_invariant_aux s R) as (W & _ & Hcells).
  assert (Hpos : forall v, v ∈ concat (GoGame.board s) -> (0 <= v)%Z).
  { intros v Hv. apply go_board_elem in Hv as (p & Hp).
    destruct (Hcells p v Hp) as [->|[->| ->]]; lia. }
  destruct (sum_nonneg_pos _ Hpos) as [_ Hsum]. fold (GoGame.board_sum (GoGame.board s)) in Hsum.
  assert (Hstone : (exists p v, go_at s p = Some v /\ v <> 0%Z) ->
            call1 GoGame.get_result game s = Ok 1%Z).
  { intros (p & v & Hp & Hv). simpl.
    assert (0 < GoGame.board_sum (GoGame.board s))%Z as H0.
    { apply Hsum. exists v. split; [|done]. apply go_board_elem. eauto. }
    apply Z.ltb_lt in H0. by rewrite H0. }
  split; [done|]. split.
  - intros Hnone. simpl.
    destruct (0 <? GoGame.board_sum (GoGame.board s))%Z eqn:E; [|done].
    apply Z.ltb_lt, Hsum in E as (v & Hv & Hv0).
    apply go_board_elem in Hv as (p & Hp). by apply Hnone in Hp.
  - intros Hn Hterm. apply Hstone.
    destruct (go_terminal_iff_full_aux game s W) as (b & Hb & Hfull).
    assert (b = true) by congruence. subst b.
    destruct (go_cell_at s 0 0 W Hn Hn) as (v & _ & Hv).
    exists (0, 0), v. split; [done|]. intros ->. by apply (proj1 Hfull eq_refl (0, 0)).
Qed.

(** * More about the engine *)

Section EngineMore.
Context {State Move Player F : Type}.
Context `{G : GameOps State Move Player} `{FO : FloatArith F}.

Local Abbreviation heap := (list (Node State)).
Implicit Types (h : heap) (nd : Node State) (tr : list nat).

(** ** The shape of the tree *)

(** After any number of completed iterations the heap is a tree rooted at
    position 0 with at most one node per iteration besides the root: every
    other node has a parent below it that lists it once among its children,
    and every listed child is a node whose parent is the lister. *)
Theorem search_builds_a_tree fuel k g (s0 : State) h g' tr :
  iterations k fuel g (initial_heap s0) = Ok (h, g', tr) ->
  wf h /\ length h <= S k /\ length tr = k /\ forall i, i ∈ tr -> i < length h.
Proof.
  intros E. apply search_inv in E as [I Hlen].
  split; [apply I|]. split; [rewrite <- Hlen; apply I|]. split; [done|].
  intros i Hi. by eapply inv_trace.
Qed.

(** ** Wins never exceed visits *)

Lemma bump_wins_le (result : Player) nd :
  wins nd <= visits nd -> wins (bump result nd) <= visits (bump result nd).
Proof.
  intros Hle. unfold bump. simpl.
  destruct (player_eqb (gs_current_player (state nd)) result); lia.
Qed.

Lemma backprop_wins_le (result : Player) fuel :
  forall h next h',
    Forall (fun nd => wins nd <= visits nd) h ->
    _backpropagate fuel h next result = Ok h' ->
    Forall (fun nd => wins nd <= visits nd) h'.
Proof.
  induction fuel as [|fuel IH]; intros h [n|] h' Hall E; simpl in E;
    try discriminate; try (by injection E as <-).
  unfold backprop_step in E.
  destruct (get h n) as [nd| |] eqn:Hg; simpl in E; try discriminate.
  apply get_Ok in Hg. eapply IH; [|exact E].
  apply Forall_insert; [done|]. apply bump_wins_le.
  rewrite Forall_lookup in Hall. by eapply Hall.
Qed.

Lemma iteration_wins_le fuel g h h' g' n :
  Forall (fun nd => wins nd <= visits nd) h ->
  iteration fuel g h = Ok (h', g', n) ->
  Forall (fun nd => wins nd <= visits nd) h'.
Proof.
  intros Hall E. unfold iteration in E.
  apply bind_Ok in E as (node & _ & E).
  apply bind_Ok in E as (nd & Hnd & E). apply get_Ok in Hnd.
  apply bind_Ok in E as (t & _ & E).
  apply bind_Ok in E as ([h1 node1] & Hex & E).
  apply bind_Ok in E as (nd1 & Hnd1 & E). apply get_Ok in Hnd1.
  apply bind_Ok in E as ([[s' g1] result] & _ & E).
  apply bind_Ok in E as (h3 & Hbp & E). injection E as <- <- <-.
  assert (H1 : Forall (fun nd => wins nd <= visits nd) h1).
  { destruct t; simpl in Hex; [by injection Hex as <- <-|].
    destruct (expand_cases h node nd h1 node1 Hnd Hex) as [[-> ->]|(s & -> & ->)]; [done|].
    apply Forall_insert.
    - apply Forall_app. split; [done|]. by apply Forall_singleton.
    - simpl. rewrite Forall_lookup in Hall. by eapply (Hall node nd). }
  eapply backprop_wins_le; [|exact Hbp].
  apply Forall_insert; [done|]. simpl.
  rewrite Forall_lookup in H1. by eapply (H1 node1 nd1).
Qed.

(** After any number of completed iterations no node has more wins than
    visits, so every win rate [wins / visits] that [ucb1] computes lies
    between 0 and 1. *)
Theorem wins_never_exceed_visits fuel k g (s0 : State) h g' tr :
  iterations k fuel g (initial_heap s0) = Ok (h, g', tr) ->
  forall i nd, h !! i = Some nd -> wins nd <= visits nd.
Proof.
  intros E. apply Forall_lookup.
  assert (Hgen : forall k g h0 h g' tr,
            Forall (fun nd : Node State => wins nd <= visits nd) h0 ->
            iterations k fuel g h0 = Ok (h, g', tr) ->
            Forall (fun nd : Node State => wins nd <= visits nd) h).
  { clear. induction k as [|k IH]; intros g h0 h g' tr Hall E; simpl in E.
    - by injection E as <- <- <-.
    - apply bind_Ok in E as ([[h1 g1] node] & Hit & E).
      apply bind_Ok in E as ([[h2 g2] nodes] & Hits & E). injection E as <- <- <-.
      eapply IH; [|exact Hits]. by eapply iteration_wins_le. }
  eapply Hgen; [|exact E]. apply Forall_singleton. done.
Qed.

(** ** Errors of [best_child] *)

Lemma mapM_length {A B} (f : A -> res B) (l : list A) (l' : list B) :
  mapM f l = Ok l' -> length l' = length l.
Proof.
  revert l'. induction l as [|x l IH]; intros l' E; simpl in E.
  - by injection E as <-.
  - apply bind_Ok in E as (y & _ & E). apply bind_Ok in E as (ys & Hys & E).
    injection E as <-. simpl. f_equal. by apply IH.
Qed.

Lemma argmax_from_lt (l : list F) :
  forall mx idx i, idx < i -> argmax_from mx idx i l < i + length l.
Proof.
  induction l as [|x l IH]; intros mx idx i Hi; simpl; [lia|].
  destruct (fle x mx).
  - specialize (IH mx idx (S i)). lia.
  - destruct (fisnan x); [lia|]. specialize (IH x i (S i)). lia.
Qed.

Lemma np_argmax_lt (l : list F) i : np_argmax l = Ok i -> i < length l.
Proof.
  destruct l as [|x l]; simpl; [done|]. intros [= <-].
  destruct (fisnan x); [lia|]. pose proof (argmax_from_lt l x 0 1). lia.
Qed.

(** [best_child] never raises [IndexError]: the position [np.argmax]
    returns is always a position of [children], for any heap, any weight
    and any float arithmetic (NaN scores included). *)
Theorem best_child_index_in_range h node (w : F) :
  best_child h node w <> Raise IndexError.
Proof.
  unfold best_child. intros E.
  destruct (get h node) as [nd|e|] eqn:Hg; simpl in E; [|unfold get in Hg; destruct (h !! node); congruence|done].
  destruct (mapM (fun child => ucb1 h child w) (children nd)) as [ws|e|] eqn:Hm; simpl in E.
  - destruct (np_argmax ws) as [i|e|] eqn:Ha; simpl in E.
    + apply np_argmax_lt in Ha. apply mapM_length in Hm.
      destruct (children nd !! i) eqn:Hc; [done|].
      apply lookup_ge_None in Hc. lia.
    + destruct ws; simpl in Ha; [|done]. congruence.
    + done.
  - injection E as ->. clear Hg.
    induction (children nd) as [|c cs IH]; simpl in Hm; [done|].
    destruct (ucb1 h c w) as [y|e|] eqn:Hu; simpl in Hm.
    + destruct (mapM (fun child => ucb1 h child w) cs); simpl in Hm; try done;
        try (by apply IH).
    + injection Hm as ->. unfold ucb1, get in Hu.
      destruct (h !! c) as [cn|]; simpl in Hu; [|done].
      destruct (visits cn =? 0); [done|].
      destruct (parent cn) as [p|]; [|done].
      destruct (h !! p); simpl in Hu; done.
    + done.
  - done.
Qed.

Lemma mapM_Raise {A B} (f : A -> res B) (e : exn) (l : list A) :
  (forall x, x ∈ l -> is_Ok (f x) = true \/ f x = Raise e) ->
  (exists x, x ∈ l /\ f x = Raise e) ->
  mapM f l = Raise e.
Proof.
  induction l as [|x l IH]; intros Hall (y & Hy & Ey); [by apply elem_of_nil in Hy|].
  simpl. destruct (Hall x) as [Hok|Hr]; [apply elem_of_cons; by left| |by rewrite Hr].
  destruct (f x) as [b| |] eqn:Ex; try done. simpl.
  rewrite IH; [done| |].
  - intros z Hz. apply Hall, elem_of_cons. by right.
  - apply elem_of_cons in Hy as [->|Hy]; [congruence|eauto].
Qed.

(** On a tree, [best_child] of a node with a child that was never visited
    raises [ZeroDivisionError] (from [node.wins / node.visits] in [ucb1]),
    whatever the other children and the weight are. *)
Theorem best_child_unvisited_child h node nd c (w : F) :
  wf h ->
  h !! node = Some nd ->
  c ∈ children nd ->
  visits_at h c = 0 ->
  best_child h node w = Raise ZeroDivisionError.
Proof.
  intros W Hnode Hc Hv. unfold best_child.
  apply get_Ok in Hnode as Hg. rewrite Hg. simpl.
  rewrite (mapM_Raise _ ZeroDivisionError); [done| |].
  - intros c' Hc'. destruct (wf_child h W node nd c' Hnode Hc') as (cn & Hcn & Hp).
    unfold ucb1. apply get_Ok in Hcn as Hgc. rewrite Hgc. simpl.
    destruct (visits cn =? 0); [by right|]. rewrite Hp, Hg. by left.
  - exists c. split; [done|].
    destruct (wf_child h W node nd c Hnode Hc) as (cn & Hcn & Hp).
    unfold ucb1. apply get_Ok in Hcn as Hgc. rewrite Hgc. simpl.
    unfold visits_at in Hv. rewrite Hcn in Hv. simpl in Hv. by rewrite Hv.
Qed.

(** ** What [search] returns *)

(** When [search] returns, it returns a child of the root, a node that was
    visited at least once. *)
Theorem search_returns_child_of_root fuel g (n_simulations : Z) (s0 : State) best h :
  search fuel g n_simulations s0 = Ok (best, h) ->
  exists r bn,
    h !! 0 = Some r /\ best ∈ children r /\
    h !! best = Some bn /\ parent bn = Some 0 /\ 1 <= visits bn.
Proof.
  intros E. unfold search in E.
  apply bind_Ok in E as ([[h1 g1] tr] & Hit & E).
  apply bind_Ok in E as (b & Hb & E). injection E as <- <-.
  apply search_inv in Hit as [I _]. pose proof (inv_wf _ _ _ I) as W.
  apply best_child_is_child in Hb as (r & Hr & Hin).
  destruct (wf_child h1 W 0 r b Hr Hin) as (bn & Hbn & Hp).
  destruct (wf_parent h1 W b bn 0 Hbn Hp) as (Hlt & _).
  exists r, bn. repeat split; try done.
  pose proof (inv_pos _ _ _ I b bn Hbn Hlt) as Hv. unfold pend in Hv. simpl in Hv. lia.
Qed.

(** ** Rollouts *)

Lemma random_choice_Ok {A} (g g' : Rng) (l : list A) (x : A) :
  random_choice g l = Ok (x, g') ->
  x ∈ l /\ tape g' = tape g /\ pos g' = S (pos g).
Proof.
  unfold random_choice. destruct l as [|a l]; [done|].
  destruct ((a :: l) !! (tape g (pos g) mod length (a :: l))) as [y|] eqn:Hy; [|done].
  intros [= <- <-]. split; [by eapply list_elem_of_lookup_2|done].
Qed.

(** [random_policy] returns exactly what the turns of its loop make of the
    state it was given.  It returns [(s', g', r)] with [fuel] turns allowed
    if and only if there are moves, at most [fuel] of them, such that the
    loop started on [s] with the generator [g] turns once for each:
    every state on the way is not terminal, each move is the one the next
    draw selects among the legal moves of the state reached, and playing
    it gives the next state; [s'] is the state after the last move, it is
    terminal by its own test and [r] is its result; and [g'] is [g] one draw
    further for each move played. *)
Theorem random_policy_ends_terminal fuel g s s' g' (r : Player) :
  random_policy fuel g s = Ok (s', g', r) <->
  exists moves,
    length moves <= fuel /\ rollout_path g s moves g' s' /\
    gs_is_terminal s' = Ok true /\ gs_get_result s' = Ok r /\
    tape g' = tape g /\ pos g' = pos g + length moves.
Proof.
  split.
  - intros E. apply random_policy_path in E as (moves & Hlen & Hpath & Hterm & Hres).
    exists moves. pose proof (rollout_path_draws _ _ _ _ _ Hpath) as [Ht Hp].
    by repeat split.
  - intros (moves & Hlen & Hpath & Hterm & Hres & _ & _).
    by eapply path_random_policy.
Qed.

(** A rollout ends when every move makes progress.  If on the states of
    some family [good] the terminal test answers, a terminal state has a
    result, and a state that is not terminal has legal moves each of which
    can be played, leads to a [good] state and lowers a measure [mu], then a
    rollout from a [good] state with [mu] units of fuel returns (with an
    outcome, having played at most [mu] moves). *)
Theorem random_policy_terminates (good : State -> Prop) (mu : State -> nat) :
  (forall s, good s -> exists b, gs_is_terminal s = Ok b) ->
  (forall s, good s -> gs_is_terminal s = Ok true -> exists r, gs_get_result s = Ok r) ->
  (forall s, good s -> gs_is_terminal s = Ok false ->
     exists moves, gs_get_legal_moves s = Ok moves /\ moves <> [] /\
       forall m, m ∈ moves -> exists s', gs_play s m = Ok s' /\ good s' /\ mu s' < mu s) ->
  forall fuel g s, good s -> mu s <= fuel ->
    exists s' g' r, random_policy fuel g s = Ok (s', g', r) /\ good s'.
Proof.
  intros Hterm Hres Hstep.
  induction fuel as [|fuel IH]; intros g s Hs Hmu.
  - simpl. destruct (Hterm s Hs) as ([|] & Ht); rewrite Ht; simpl.
    + destruct (Hres s Hs Ht) as (r & ->). simpl. eauto.
    + destruct (Hstep s Hs Ht) as (moves & _ & Hne & Hplay).
      destruct moves as [|m moves]; [done|].
      destruct (Hplay m) as (s' & _ & _ & Hlt); [apply elem_of_cons; by left|lia].
  - simpl. destruct (Hterm s Hs) as ([|] & Ht); rewrite Ht; simpl.
    + destruct (Hres s Hs Ht) as (r & ->). simpl. eauto.
    + destruct (Hstep s Hs Ht) as (moves & -> & Hne & Hplay). simpl.
      destruct (random_choice g moves) as [[m g1]| |] eqn:Hch.
      * apply random_choice_Ok in Hch as Hch'. destruct Hch' as (Hm & _). simpl.
        destruct (Hplay m Hm) as (s1 & -> & Hs1 & Hlt). simpl.
        apply IH; [done|lia].
      * exfalso. unfold random_choice in Hch. destruct moves as [|a l]; [done|].
        destruct ((a :: l) !! (tape g (pos g) mod length (a :: l))) eqn:Hl; [done|].
        apply lookup_ge_None in Hl.
        pose proof (Nat.mod_upper_bound (tape g (pos g)) (length (a :: l))). simpl in *. lia.
      * exfalso. unfold random_choice in Hch. destruct moves as [|a l]; [done|].
        by destruct ((a :: l) !! (tape g (pos g) mod length (a :: l))).
Qed.

(** ** The effect of a backpropagation *)

Lemma ancestors_update fuel h n0 nd0 nd' :
  h !! n0 = Some nd0 -> parent nd' = parent nd0 ->
  forall n, ancestors fuel (<[n0 := nd']> h) n = ancestors fuel h n.
Proof.
  intros Hn0 Hp. induction fuel as [|fuel IH]; intros n; simpl; [done|].
  destruct (decide (n = n0)) as [->|Hne].
  - rewrite list_lookup_insert_eq by (by eapply lookup_lt_Some).
    rewrite Hn0, Hp. f_equal. destruct (parent nd0); [apply IH|done].
  - rewrite list_lookup_insert_ne by done.
    destruct (h !! n) as [nd|]; [|done]. f_equal. destruct (parent nd); [apply IH|done].
Qed.

Lemma ancestors_le fuel h :
  wf h -> forall n i, i ∈ ancestors fuel h n -> i <= n.
Proof.
  intros W. induction fuel as [|fuel IH]; intros n i Hi; simpl in Hi.
  - by apply elem_of_nil in Hi.
  - destruct (h !! n) as [nd|] eqn:Hn; [|by apply elem_of_nil in Hi].
    apply elem_of_cons in Hi as [->|Hi]; [done|].
    destruct (parent nd) as [p|] eqn:Hp; [|by apply elem_of_nil in Hi].
    destruct (wf_parent h W n nd p Hn Hp) as (Hlt & _).
    apply IH in Hi. lia.
Qed.

Lemma ancestors_root fuel h :
  wf h -> forall n, n < fuel -> n < length h -> 0 ∈ ancestors fuel h n.
Proof.
  intros W. induction fuel as [|fuel IH]; intros n Hf Hn; [lia|]. simpl.
  destruct (lookup_lt_is_Some_2 h n Hn) as (nd & Hnd). rewrite Hnd.
  destruct (parent nd) as [p|] eqn:Hp.
  - destruct (wf_parent h W n nd p Hnd Hp) as (Hlt & _).
    apply elem_of_cons. right. apply IH; lia.
  - rewrite (wf_orphan h W n nd Hnd Hp). apply elem_of_cons. by left.
Qed.

Lemma backpropagate_walk (result : Player) fuel :
  forall h n,
    wf h -> n < fuel -> n < length h ->
    exists h',
      _backpropagate fuel h (Some n) result = Ok h' /\
      forall i, h' !! i =
        (fun nd => if decide (i ∈ ancestors fuel h n) then bump result nd else nd) <$> h !! i.
Proof.
  induction fuel as [|fuel IH]; intros h n W Hf Hn; [lia|].
  destruct (lookup_lt_is_Some_2 h n Hn) as (nd & Hnd).
  simpl. unfold backprop_step. apply get_Ok in Hnd as Hg. rewrite Hg, Hnd. simpl.
  destruct (parent nd) as [p|] eqn:Hp.
  - destruct (wf_parent h W n nd p Hnd Hp) as (Hlt & _).
    destruct (IH (<[n := bump result nd]> h) p) as (h' & -> & Hh').
    { by eapply wf_update. }
    { lia. }
    { rewrite length_insert. lia. }
    exists h'. split; [done|]. intros i. rewrite Hh'.
    rewrite (ancestors_update fuel h n nd) by done.
    destruct (decide (i = n)) as [->|Hne].
    + rewrite list_lookup_insert_eq, Hnd by done. simpl.
      rewrite decide_False, decide_True; [done|apply elem_of_cons; by left|].
      intros Hin. apply (ancestors_le fuel h W) in Hin. lia.
    + rewrite list_lookup_insert_ne by done.
      destruct (h !! i) as [x|]; [|done]. simpl. f_equal.
      destruct (decide (i ∈ ancestors fuel h p)) as [Hin|Hin].
      * rewrite decide_True; [done|]. apply elem_of_cons. by right.
      * rewrite decide_False; [done|]. intros [?|?]%elem_of_cons; done.
  - exists (<[n := bump result nd]> h). split; [by destruct fuel|].
    intros i. destruct (decide (i = n)) as [->|Hne].
    + rewrite list_lookup_insert_eq, Hnd by done. simpl.
      rewrite decide_True; [done|]. apply elem_of_cons. by left.
    + rewrite list_lookup_insert_ne by done.
      destruct (h !! i) as [x|]; [|done]. simpl. f_equal.
      rewrite decide_False; [done|]. intros [?|Hin]%elem_of_cons; [done|].
      by apply elem_of_nil in Hin.
Qed.

(** On a tree [_backpropagate], started at a node with the fuel [search]
    gives it, returns: it has walked the [parent] links from the node to
    the root, both included, and on that walk alone it has added one visit
    to each node and one win to each node whose state's [current_player]
    equals the result.  States, parents and children are as they were. *)
Theorem backpropagate_effect h n (result : Player) :
  wf h -> n < length h ->
  exists h',
    _backpropagate (length h) h (Some n) result = Ok h' /\
    length h' = length h /\
    n ∈ ancestors (length h) h n /\ 0 ∈ ancestors (length h) h n /\
    forall i nd, h !! i = Some nd ->
      exists nd',
        h' !! i = Some nd' /\
        state nd' = state nd /\ parent nd' = parent nd /\ children nd' = children nd /\
        visits nd' =
          visits nd + (if decide (i ∈ ancestors (length h) h n) then 1 else 0) /\
        wins nd' =
          wins nd + (if decide (i ∈ ancestors (length h) h n)
                     then if player_eqb (gs_current_player (state nd)) result then 1 else 0
                     else 0).
Proof.
  intros W Hn.
  destruct (backpropagate_walk result (length h) h n W Hn Hn) as (h' & E & Hh').
  exists h'. split; [done|]. split; [|split; [|split; [by apply ancestors_root|]]].
  - apply Nat.le_antisymm.
    + destruct (decide (length h' <= length h)) as [|Hgt]; [done|].
      destruct (lookup_lt_is_Some_2 h' (length h)) as (x & Hx); [lia|].
      rewrite Hh', lookup_ge_None_2 in Hx by lia. done.
    + destruct (decide (length h <= length h')) as [|Hgt]; [done|].
      destruct (lookup_lt_is_Some_2 h (length h')) as (x & Hx); [lia|].
      pose proof (Hh' (length h')) as E'. rewrite Hx, lookup_ge_None_2 in E' by lia. done.
  - destruct (lookup_lt_is_Some_2 h n Hn) as (nd & Hnd).
    destruct (length h) as [|k] eqn:Hl; [lia|]. simpl. rewrite Hnd.
    apply elem_of_cons. by left.
  - intros i nd Hi. rewrite Hh', Hi. simpl. eexists. split; [done|].
    destruct (decide (i ∈ ancestors (length h) h n)); simpl; repeat split; try lia.
    destruct (player_eqb (gs_current_player (state nd)) result); lia.
Qed.

(** ** Selection and expansion *)

(** The node [_select] returns is a node of the heap at which the descent
    had to stop: its state is terminal for the game, or it is not terminal
    and the node is not fully expanded. *)
Theorem select_stops_at_frontier fuel :
  forall h n m,
    _select fuel h n = Ok m ->
    exists nd, h !! m = Some nd /\
      (game_is_terminal (state nd) = Ok true \/
       (game_is_terminal (state nd) = Ok false /\ is_fully_expanded h m = Ok false)).
Proof.
  induction fuel as [|fuel IH]; intros h n m E; simpl in E.
  - apply bind_Ok in E as (nd & Hnd & E). apply get_Ok in Hnd.
    apply bind_Ok in E as ([|] & Ht & E); [injection E as <-; eauto|].
    apply bind_Ok in E as ([|] & Hfe & E); [done|]. injection E as <-. eauto.
  - apply bind_Ok in E as (nd & Hnd & E). apply get_Ok in Hnd.
    apply bind_Ok in E as ([|] & Ht & E); [injection E as <-; eauto|].
    apply bind_Ok in E as ([|] & Hfe & E); [|injection E as <-; eauto].
    apply bind_Ok in E as (c & _ & E). by eapply IH.
Qed.

Lemma mapM_not_OutOfFuel {A B} (f : A -> res B) (l : list A) :
  (forall x, f x <> OutOfFuel) -> mapM f l <> OutOfFuel.
Proof.
  intros Hf. induction l as [|x l IH]; simpl; [done|].
  destruct (f x) as [y| |] eqn:E; simpl; [|done|by apply Hf in E].
  by destruct (mapM f l).
Qed.

Lemma ucb1_not_OutOfFuel h c (w : F) : ucb1 h c w <> OutOfFuel.
Proof.
  unfold ucb1, get. destruct (h !! c) as [cn|]; simpl; [|done].
  destruct (visits cn =? 0); [done|].
  destruct (parent cn) as [p|]; [|done]. by destruct (h !! p).
Qed.

Lemma best_child_not_OutOfFuel h n (w : F) : best_child h n w <> OutOfFuel.
Proof.
  unfold best_child, get. destruct (h !! n) as [nd|]; simpl; [|done].
  pose proof (mapM_not_OutOfFuel (fun child => ucb1 h child w) (children nd)
                (fun c => ucb1_not_OutOfFuel h c w)) as Hm.
  destruct (mapM _ (children nd)) as [ws| |]; simpl; [|done|done].
  unfold np_argmax. destruct ws as [|x ws]; simpl; [done|].
  by destruct (children nd !! _).
Qed.

(** On a tree the loop of [_select] ends.  Each turn moves to a child,
    which was created after its parent and so sits higher in the heap: from
    a node at position [node] in a heap of size [length h], [length h - node]
    turns are enough.  With that much fuel or more, and a game whose
    terminal test and legal moves return or raise on the states of the tree,
    [_select] never runs out of fuel: it returns a node or raises.  The node
    returned is [node] or one above it in the heap, and the amount of fuel
    makes no difference. *)
Theorem select_terminates h :
  wf h ->
  (forall i nd, h !! i = Some nd ->
     game_is_terminal (state nd) <> OutOfFuel /\
     gs_get_legal_moves (state nd) <> OutOfFuel) ->
  forall fuel node,
    length h <= fuel + node ->
    _select fuel h node <> OutOfFuel /\
    (forall m, _select fuel h node = Ok m -> node <= m < length h) /\
    (forall fuel', length h <= fuel' + node -> _select fuel' h node = _select fuel h node).
Proof.
  intros W Hgame fuel node Hf.
  split; [|split; [|intros fuel' Hf'; by apply select_fuel]].
  - revert node Hf. induction fuel as [|fuel IH]; intros node Hf; simpl.
    + unfold get. rewrite lookup_ge_None_2 by lia. done.
    + unfold is_fully_expanded, get.
      destruct (h !! node) as [nd|] eqn:Hg; simpl; [|done].
      destruct (Hgame node nd Hg) as [Hterm Hlegal].
      destruct (game_is_terminal (state nd)) as [[|]| |]; simpl; [done| |done|done].
      destruct (gs_get_legal_moves (state nd)) as [legal_moves| |]; simpl; [|done|done].
      destruct (length (children nd) =? length legal_moves); [|done].
      pose proof (best_child_not_OutOfFuel h node weight_default) as Hb.
      destruct (best_child h node weight_default) as [c| |] eqn:Ec; simpl; [|done|done].
      apply best_child_is_child in Ec as (nd' & Hnd' & Hc).
      destruct (wf_child h W node nd' c Hnd' Hc) as (cn & Hcn & Hp).
      destruct (wf_parent h W c cn node Hcn Hp) as (Hlt & _).
      apply IH. lia.
  - clear Hf. revert node. induction fuel as [|fuel IH]; intros node m E; simpl in E.
    + apply bind_Ok in E as (nd & Hnd & E). apply get_Ok, lookup_lt_Some in Hnd.
      apply bind_Ok in E as ([|] & _ & E); [injection E as <-; lia|].
      apply bind_Ok in E as ([|] & _ & E); [done|]. injection E as <-. lia.
    + apply bind_Ok in E as (nd & Hnd & E). apply get_Ok in Hnd.
      pose proof (lookup_lt_Some _ _ _ Hnd) as Hlt.
      apply bind_Ok in E as ([|] & _ & E); [injection E as <-; lia|].
      apply bind_Ok in E as ([|] & _ & E); [|injection E as <-; lia].
      apply bind_Ok in E as (c & Ec & E).
      apply best_child_is_child in Ec as (nd' & Hnd' & Hc).
      destruct (wf_child h W node nd' c Hnd' Hc) as (cn & Hcn & Hp).
      destruct (wf_parent h W c cn node Hcn Hp) as (Hlt' & _).
      apply IH in E. lia.
Qed.

Lemma mapM_is_Ok {A B} (f : A -> res B) (l : list A) :
  (forall x, x ∈ l -> exists y, f x = Ok y) -> exists ys, mapM f l = Ok ys.
Proof.
  induction l as [|x l IH]; intros Hf; simpl; [eauto|].
  destruct (Hf x) as (y & ->); [apply elem_of_cons; by left|]. simpl.
  destruct IH as (ys & ->); [intros z Hz; apply Hf, elem_of_cons; by right|].
  simpl. eauto.
Qed.

(** When no move ever compares equal to a state (as a tuple and a
    [GoGame] do not), the membership test of [_expand] rejects nothing:
    whatever children the node already has, [_expand] plays the first legal
    move of its state, and it returns the node itself only when there is
    no legal move. *)
Theorem expand_plays_first_move h n nd moves :
  (forall (m : Move) (s : State), move_eq_state m s = false) ->
  h !! n = Some nd ->
  (forall c, c ∈ children nd -> is_Some (h !! c)) ->
  gs_get_legal_moves (state nd) = Ok moves ->
  _expand h n =
    match moves with
    | [] => Ok (h, n)
    | m :: _ =>
        let* s' := gs_play (state nd) m in
        Ok (<[n := add_child (length h) nd]> (h ++ [Node_init s' (Some n)]), length h)
    end.
Proof.
  intros Hneq Hn Hcs Hmoves. unfold _expand.
  apply get_Ok in Hn. rewrite Hn. simpl. rewrite Hmoves. simpl.
  destruct (mapM_is_Ok (fun c => let* cn := get h c in Ok (state cn)) (children nd))
    as (states & ->).
  { intros c Hc. destruct (Hcs c Hc) as (cn & Hcn). apply get_Ok in Hcn.
    rewrite Hcn. simpl. eauto. }
  simpl. destruct moves as [|m ms]; [done|]. simpl.
  assert (move_not_in m states = true) as ->; [|done].
  unfold move_not_in. apply negb_true_iff.
  induction states as [|st states IH]; simpl; [done|]. by rewrite Hneq.
Qed.

(** [_expand] leaves every node of the heap where it is, with its state,
    parent, wins and visits; only the expanded node can change, by one more
    child at the end of [children], and then that child is the one new
    node of the heap, a node without visits, wins or children. *)
Theorem expand_keeps_nodes h n h1 n1 :
  _expand h n = Ok (h1, n1) ->
  (forall i nd, h !! i = Some nd ->
     exists nd1, h1 !! i = Some nd1 /\
       state nd1 = state nd /\ parent nd1 = parent nd /\
       wins nd1 = wins nd /\ visits nd1 = visits nd /\
       (children nd1 = children nd \/
        (i = n /\ n1 = length h /\ children nd1 = children nd ++ [length h]))) /\
  ((h1 = h /\ n1 = n) \/
   (length h1 = S (length h) /\ n1 = length h /\
    exists s, h1 !! n1 = Some (mkNode s (Some n) [] 0 0))).
Proof.
  intros E. pose proof E as E'. unfold _expand in E'.
  apply bind_Ok in E' as (nd0 & Hn & _). apply get_Ok in Hn.
  assert (Hlt : n < length h) by (by eapply lookup_lt_Some).
  destruct (expand_cases h n nd0 h1 n1 Hn E) as [[-> ->]|(s & -> & ->)].
  - split; [|by left]. intros i nd Hi. exists nd. repeat split; auto.
  - split.
    + intros i nd Hi. destruct (decide (i = n)) as [->|Hne].
      * exists (add_child (length h) nd0). assert (nd = nd0) by congruence. subst nd.
        split; [apply lookup_grow; auto|]. simpl. repeat split; auto.
      * exists nd. split; [apply lookup_grow; auto|]. repeat split; auto.
    + right. split; [rewrite length_insert, length_app; simpl; lia|]. split; [done|].
      exists s. apply lookup_grow; auto.
Qed.

(** ** The depth of the tree *)

Lemma backprop_frame (result : Player) fuel :
  forall h next h',
    _backpropagate fuel h next result = Ok h' ->
    forall i nd', h' !! i = Some nd' ->
      exists nd, h !! i = Some nd /\
        state nd' = state nd /\ parent nd' = parent nd /\ children nd' = children nd.
Proof.
  induction fuel as [|fuel IH]; intros h [n|] h' E i nd' Hi; simpl in E;
    try discriminate; try (injection E as <-; by eauto).
  unfold backprop_step in E.
  destruct (get h n) as [nd| |] eqn:Hg; simpl in E; try discriminate.
  apply get_Ok in Hg.
  destruct (IH _ _ _ E i nd' Hi) as (x & Hx & Hs & Hp & Hc).
  apply list_lookup_insert_Some in Hx as [(<- & <- & _)|[Hne Hx]]; eauto.
Qed.

Lemma random_policy_Ok_terminal fuel :
  forall g s s' g' (r : Player),
    random_policy fuel g s = Ok (s', g', r) -> gs_is_terminal s' = Ok true.
Proof.
  induction fuel as [|fuel IH]; intros g s s' g' r E; simpl in E.
  - apply bind_Ok in E as ([|] & Ht & E); [|done].
    apply bind_Ok in E as (r' & Hr & E). by injection E as <- <- <-.
  - apply bind_Ok in E as ([|] & Ht & E).
    + apply bind_Ok in E as (r' & Hr & E). by injection E as <- <- <-.
    + apply bind_Ok in E as (moves & _ & E).
      apply bind_Ok in E as ([move g1] & _ & E).
      apply bind_Ok in E as (s1 & _ & E). by eapply IH.
Qed.

Lemma iteration_flat fuel g h h' g' n :
  (forall s, gs_is_terminal s = Ok true -> game_is_terminal s = Ok true) ->
  flat_tree h -> iteration fuel g h = Ok (h', g', n) -> flat_tree h'.
Proof.
  intros Hagree D E. unfold iteration in E.
  apply bind_Ok in E as (node & _ & E).
  apply bind_Ok in E as (nd & Hnd & E). apply get_Ok in Hnd.
  apply bind_Ok in E as (t & Ht & E).
  apply bind_Ok in E as ([h1 node1] & Hex & E).
  apply bind_Ok in E as (nd1 & Hnd1 & E). apply get_Ok in Hnd1.
  apply bind_Ok in E as ([[s' g1] result] & Hro & E).
  apply bind_Ok in E as (h3 & Hbp & E). injection E as <- <- <-.
  apply random_policy_Ok_terminal in Hro.
  assert (Hroot : t = false -> node = 0).
  { intros ->. destruct node as [|k]; [done|].
    destruct (D (S k) nd Hnd) as (_ & _ & Hterm); [lia|].
    apply Hagree in Hterm. congruence. }
  assert (Hlen : 0 < length h).
  { apply lookup_lt_Some in Hnd. lia. }
  assert (D2 : flat_tree (<[node1 := set_state s' nd1]> h1)).
  { intros i x Hi Hpos.
    apply list_lookup_insert_Some in Hi as [(<- & <- & _)|[Hne Hi]].
    - simpl. destruct t; simpl in Hex.
      + injection Hex as <- <-. assert (nd1 = nd) by congruence. subst nd1.
        destruct (D node nd Hnd Hpos) as (Hp & Hc & _). done.
      + rewrite (Hroot eq_refl) in *.
        destruct (expand_cases h 0 nd h1 node1 Hnd Hex) as [[-> ->]|(s & -> & ->)]; [lia|].
        apply lookup_grow in Hnd1 as [[Hl _]|[[_ Hl]|[_ ->]]]; [lia| |done|lia].
        apply lookup_lt_Some in Hl. lia.
    - destruct t; simpl in Hex.
      + injection Hex as <- <-. by apply (D i x).
      + rewrite (Hroot eq_refl) in *.
        destruct (expand_cases h 0 nd h1 node1 Hnd Hex) as [[-> ->]|(s & -> & ->)];
          [by apply (D i x)|].
        apply lookup_grow in Hi as [[Hl _]|[[_ Hi]|[Hl _]]];
          [lia|by apply (D i x)|done|lia]. }
  intros i x Hi Hpos.
  destruct (backprop_frame _ _ _ _ _ Hbp i x Hi) as (y & Hy & -> & -> & ->).
  by apply (D2 i y).
Qed.

(** When a state that is terminal by its own test is terminal for the game
    too, the tree never grows past depth one.  The rollout of an expanded
    node plays on the node's own state and leaves it terminal, so the node
    is never expanded: after any number of completed iterations every node
    but the root is a child of the root, without children, holding a
    terminal state. *)
Theorem tree_stays_flat fuel k g (s0 : State) h g' tr :
  (forall s, gs_is_terminal s = Ok true -> game_is_terminal s = Ok true) ->
  iterations k fuel g (initial_heap s0) = Ok (h, g', tr) ->
  flat_tree h.
Proof.
  intros Hagree.
  assert (Hgen : forall k g h0 h g' tr,
            flat_tree h0 -> iterations k fuel g h0 = Ok (h, g', tr) -> flat_tree h).
  { clear k g h g' tr. induction k as [|k IH]; intros g h0 h g' tr D E; simpl in E.
    - by injection E as <- <- <-.
    - apply bind_Ok in E as ([[h1 g1] node] & Hit & E).
      apply bind_Ok in E as ([[h2 g2] nodes] & Hits & E). injection E as <- <- <-.
      eapply IH; [|exact Hits]. by eapply iteration_flat. }
  intros E. eapply Hgen; [|exact E].
  intros [|i] nd Hi Hpos; [lia|by destruct i].
Qed.

(** ** The first iteration *)

Lemma iteration_initial_terminal fuel g (s0 : State) :
  game_is_terminal s0 = Ok true ->
  iteration fuel g (initial_heap s0) =
    let* (s', g', result) := random_policy fuel g s0 in
    let* h3 := _backpropagate 1 [mkNode s' None [] 0 0] (Some 0) result in
    Ok (h3, g', 0).
Proof.
  intros Ht. unfold iteration, initial_heap, Node_init. simpl.
  repeat (rewrite Ht; simpl). done.
Qed.

Lemma iteration_initial_expand fuel g (s0 s1 : State) m ms :
  game_is_terminal s0 = Ok false ->
  gs_get_legal_moves s0 = Ok (m :: ms) ->
  gs_play s0 m = Ok s1 ->
  iteration fuel g (initial_heap s0) =
    let* (s', g', result) := random_policy fuel g s1 in
    let* h3 := _backpropagate 2 [mkNode s0 None [1] 0 0; mkNode s' (Some 0) [] 0 0]
                 (Some 1) result in
    Ok (h3, g', 1).
Proof.
  intros Ht Hm Hp. unfold iteration, initial_heap, Node_init. simpl.
  rewrite Ht. simpl. unfold is_fully_expanded. simpl. rewrite Hm. simpl.
  rewrite Ht. simpl. unfold _expand. simpl. rewrite Hm. simpl.
  rewrite Hp. simpl. done.
Qed.

End EngineMore.

(** * The bundled game under the engine, once more *)

(** On every well-formed board and for every positive [n_simulations],
    [search] on the bundled game raises [TypeError]: the first iteration
    selects the root, expands it unless the board is full, and stops in the
    rollout at [state.is_terminal()]. *)
Theorem go_search_raises_TypeError {F} `{FloatArith F} fuel g (game s : GoGame.t) (n : Z) :
  go_wf s -> (0 < n)%Z ->
  search (G := GoGame.ops game) fuel g n s = Raise TypeError.
Proof.
  intros W Hn. unfold search.
  destruct (Z.to_nat n) as [|k] eqn:Hk; [lia|]. simpl.
  assert (iteration (G := GoGame.ops game) fuel g (initial_heap s) = Raise TypeError) as ->;
    [|done].
  pose proof (go_legal_moves_filter s W) as Hmoves.
  destruct (filter (go_empty s) (go_cells (GoGame.board_size s))) as [|m ms] eqn:Hf.
  - rewrite iteration_initial_terminal.
    + by rewrite GoGame_random_policy.
    + change (call1 GoGame.is_terminal game s = Ok true).
      unfold call1, GoGame.is_terminal. by rewrite Hmoves.
  - assert (Hin : m ∈ filter (go_empty s) (go_cells (GoGame.board_size s))).
    { rewrite Hf. apply elem_of_cons. by left. }
    apply list_elem_of_filter in Hin as [_ Hin]. apply go_cells_elem in Hin as [Hx Hy].
    destruct m as [x y]. simpl in Hx, Hy.
    destruct (go_play_in_range s x y W Hx Hy) as (row & _ & _ & Hplay).
    erewrite iteration_initial_expand.
    + by rewrite GoGame_random_policy.
    + change (call1 GoGame.is_terminal game s = Ok false).
      unfold call1, GoGame.is_terminal. by rewrite Hmoves.
    + exact Hmoves.
    + exact Hplay.
Qed.

(** * Instances of the theorems above *)

Lemma wf_after_iterations {State Move Player F} `{GameOps State Move Player} `{FloatArith F}
    fuel k g (s0 : State) h g' tr :
  iterations k fuel g (initial_heap s0) = Ok (h, g', tr) -> wf h.
Proof. intros E. apply search_inv in E as [I _]. apply I. Qed.

(** The rollouts of [GoState] make progress: every move fills a cell. *)
Lemma go_state_progress (game : GoGame.t) :
  (forall s, go_reachable s -> exists b, gs_is_terminal (GameOps := GoState.ops game) s = Ok b) /\
  (forall s, go_reachable s -> gs_is_terminal (GameOps := GoState.ops game) s = Ok true ->
     exists r, gs_get_result (GameOps := GoState.ops game) s = Ok r) /\
  (forall s, go_reachable s -> gs_is_terminal (GameOps := GoState.ops game) s = Ok false ->
     exists moves, gs_get_legal_moves (GameOps := GoState.ops game) s = Ok moves /\
       moves <> [] /\
       forall m, m ∈ moves ->
         exists s', gs_play (GameOps := GoState.ops game) s m = Ok s' /\ go_reachable s' /\
           go_empty_count s' < go_empty_count s).
Proof.
  assert (Hterm : forall s, go_wf s ->
            gs_is_terminal (GameOps := GoState.ops game) s =
            Ok (length (filter (go_empty s) (go_cells (GoGame.board_size s))) =? 0)).
  { intros s W. change (call0 GoState.is_terminal s = Ok (go_empty_count s =? 0)).
    unfold call0, GoState.is_terminal. by rewrite go_legal_moves_filter. }
  split; [|split].
  - intros s R. destruct (go_reachable_invariant_aux s R) as (W & _). rewrite Hterm by done. eauto.
  - intros s _ _. simpl. eauto.
  - intros s R Ht. destruct (go_reachable_invariant_aux s R) as (W & Hcp & _).
    rewrite Hterm in Ht by done. injection Ht as Ht. apply Nat.eqb_neq in Ht.
    exists (filter (go_empty s) (go_cells (GoGame.board_size s))).
    split; [by apply go_legal_moves_filter|].
    split; [intros E; by rewrite E in Ht|].
    intros m Hm.
    destruct (go_play_consumes_move_aux s
                (filter (go_empty s) (go_cells (GoGame.board_size s))) m W)
      as (s' & Hplay & Hmoves & Hlen);
      [lia|by apply go_legal_moves_filter|done|].
    exists s'. split; [done|]. split; [by eapply go_reach_play|].
    assert (W' : go_wf s').
    { destruct (go_reachable_invariant_aux s'); [by eapply go_reach_play|done]. }
    pose proof (go_legal_moves_filter s' W') as E. rewrite Hmoves in E.
    injection E as E. unfold go_empty_count. rewrite <- E. lia.
Qed.

Lemma go2_first_wf : go_wf go2_first.
Proof. split; [done|]. repeat constructor. Defined.

Lemma go2_first_reachable : go_reachable go2_first.
Proof. apply (go_reach_play go2 (0, 0)); [apply go_reach_init|reflexivity]. Defined.

Lemma unvisited_heap_wf : wf unvisited_heap.
Proof.
  apply (wf_grow (initial_heap go2) 0 (Node_init go2 None) go2_first (wf_initial go2)).
  reflexivity.
Defined.

(** [go_legal_moves_are_empty_cells] on the 2 x 2 board after [(0, 0)]. *)
Lemma go_legal_moves_are_empty_cells_witness :
  exists moves,
    GoGame.get_legal_moves go2_first = Ok moves /\
    moves = filter (go_empty go2_first) (go_cells (GoGame.board_size go2_first)) /\
    NoDup moves /\
    forall p, p ∈ moves <->
      p.1 < GoGame.board_size go2_first /\ p.2 < GoGame.board_size go2_first /\
      go_at go2_first p = Some 0%Z.
Proof. apply (go_legal_moves_are_empty_cells go2_first go2_first_wf). Defined.


(** [go_play_consumes_move] on the same board, for the move [(1, 0)]. *)
Lemma go_play_consumes_move_witness :
  exists s',
    GoGame.play go2_first (1, 0) = Ok s' /\
    GoGame.get_legal_moves s'
      = Ok (filter (fun q => q <> (1, 0)) [(0, 1); (1, 0); (1, 1)]) /\
    S (length (filter (fun q => q <> (1, 0)) [(0, 1); (1, 0); (1, 1)]))
      = length [(0, 1); (1, 0); (1, 1)].
Proof.
  apply (go_play_consumes_move go2_first [(0, 1); (1, 0); (1, 1)] (1, 0) go2_first_wf).
  - discriminate.
  - reflexivity.
  - apply elem_of_cons. right. apply elem_of_cons. by left.
Defined.

(** [go_reachable_invariant] on the same board. *)
Lemma go_reachable_invariant_witness :
  go_wf go2_first /\
  (GoGame.current_player go2_first = 1%Z \/ GoGame.current_player go2_first = 2%Z) /\
  forall p v, go_at go2_first p = Some v -> v = 0%Z \/ v = 1%Z \/ v = 2%Z.
Proof. apply (go_reachable_invariant go2_first go2_first_reachable). Defined.

(** [go_terminal_iff_full] on the same board. *)
Lemma go_terminal_iff_full_witness :
  exists b,
    call1 GoGame.is_terminal go2 go2_first = Ok b /\
    (b = true <-> forall p, go_at go2_first p <> Some 0%Z).
Proof. apply (go_terminal_iff_full go2 go2_first go2_first_wf). Defined.

(** [go_result_is_player_one] on the same board. *)
Lemma go_result_is_player_one_witness :
  ((exists p v, go_at go2_first p = Some v /\ v <> 0%Z) ->
   call1 GoGame.get_result go2 go2_first = Ok 1%Z) /\
  ((forall p v, go_at go2_first p = Some v -> v = 0%Z) ->
   call1 GoGame.get_result go2 go2_first = Ok 2%Z) /\
  (0 < GoGame.board_size go2_first -> call1 GoGame.is_terminal go2 go2_first = Ok true ->
   call1 GoGame.get_result go2 go2_first = Ok 1%Z).
Proof. apply (go_result_is_player_one go2 go2_first go2_first_reachable). Defined.

(** [go_search_raises_TypeError] on the same board with the script's
    thousand simulations. *)
Lemma go_search_raises_TypeError_witness :
  search (G := GoGame.ops go2) (FO := Binary64.ops) 10 rng0 1000 go2_first = Raise TypeError.
Proof.
  apply (go_search_raises_TypeError (H := Binary64.ops) 10 rng0 go2 go2_first 1000
           go2_first_wf).
  lia.
Defined.

(** [search_builds_a_tree] after six iterations from the empty 2 x 2 board. *)
Lemma search_builds_a_tree_witness :
  exists h g' tr,
    iterations (G := GoState.ops go2) (FO := Binary64.ops) 6 10 rng0 (initial_heap go2)
      = Ok (h, g', tr) /\
    wf h /\ length h <= 7 /\ length tr = 6 /\ forall i, i ∈ tr -> i < length h.
Proof.
  eexists _, _, _. split; [vm_compute; reflexivity|].
  eapply (search_builds_a_tree (G := GoState.ops go2) (FO := Binary64.ops) 10 6 rng0 go2).
  vm_compute; reflexivity.
Defined.

(** [wins_never_exceed_visits] after the same six iterations. *)
Lemma wins_never_exceed_visits_witness :
  exists h g' tr,
    iterations (G := GoState.ops go2) (FO := Binary64.ops) 6 10 rng0 (initial_heap go2)
      = Ok (h, g', tr) /\
    forall i (nd : Node GoGame.t), h !! i = Some nd -> wins nd <= visits nd.
Proof.
  eexists _, _, _. split; [vm_compute; reflexivity|].
  eapply (wins_never_exceed_visits (G := GoState.ops go2) (FO := Binary64.ops) 10 6 rng0 go2).
  vm_compute; reflexivity.
Defined.

(** [best_child_unvisited_child] at the root of [unvisited_heap]. *)
Lemma best_child_unvisited_child_witness :
  best_child (FO := Binary64.ops) unvisited_heap 0 weight_default = Raise ZeroDivisionError.
Proof.
  apply (best_child_unvisited_child (FO := Binary64.ops) unvisited_heap 0
           (mkNode go2 None [1] 0 0) 1 weight_default unvisited_heap_wf).
  - reflexivity.
  - apply elem_of_cons. by left.
  - reflexivity.
Defined.

(** [search_returns_child_of_root] on six simulations from the empty
    2 x 2 board. *)
Lemma search_returns_child_of_root_witness :
  exists best h,
    search (G := GoState.ops go2) (FO := Binary64.ops) 10 rng0 6 go2 = Ok (best, h) /\
    exists (r bn : Node GoGame.t),
      h !! 0 = Some r /\ best ∈ children r /\
      h !! best = Some bn /\ parent bn = Some 0 /\ 1 <= visits bn.
Proof.
  eexists _, _. split; [vm_compute; reflexivity|].
  eapply (search_returns_child_of_root (G := GoState.ops go2) (FO := Binary64.ops)
            10 rng0 6 go2).
  vm_compute; reflexivity.
Defined.

(** [random_policy_ends_terminal] on the 2 x 2 board after [(0, 0)], with
    the generator whose draws are 0, 1, 2, ...: three cells are empty, the
    rollout fills [(0, 1)], [(1, 1)] and [(1, 0)] in that order, and the
    generator ends three draws further. *)
Lemma random_policy_ends_terminal_witness :
  let s' := GoGame.mk 2 [[1%Z; 2%Z]; [2%Z; 1%Z]] 1%Z in
  let g' := mkRng (tape rng0) 3 in
  (exists moves,
     length moves <= 10 /\
     rollout_path (G := GoState.ops go2) rng0 go2_first moves g' s' /\
     gs_is_terminal (GameOps := GoState.ops go2) s' = Ok true /\
     gs_get_result (GameOps := GoState.ops go2) s' = Ok 1%Z /\
     tape g' = tape rng0 /\ pos g' = pos rng0 + length moves) /\
  random_policy (G := GoState.ops go2) 10 rng0 go2_first = Ok (s', g', 1%Z).
Proof.
  assert (P : rollout_path (G := GoState.ops go2) rng0 go2_first [(0, 1); (1, 1); (1, 0)]
                (mkRng (tape rng0) 3) (GoGame.mk 2 [[1%Z; 2%Z]; [2%Z; 1%Z]] 1%Z)).
  { eapply (rollout_move (G := GoState.ops go2) _ _ [(0, 1); (1, 0); (1, 1)]);
      [reflexivity|reflexivity|reflexivity|reflexivity|].
    eapply (rollout_move (G := GoState.ops go2) _ _ [(1, 0); (1, 1)]);
      [reflexivity|reflexivity|reflexivity|reflexivity|].
    eapply (rollout_move (G := GoState.ops go2) _ _ [(1, 0)]);
      [reflexivity|reflexivity|reflexivity|reflexivity|].
    apply rollout_stop. }
  split.
  - exists [(0, 1); (1, 1); (1, 0)].
    split; [simpl; lia|]. split; [exact P|]. by repeat split.
  - apply (proj2 (random_policy_ends_terminal (G := GoState.ops go2) 10 rng0 go2_first
                    (GoGame.mk 2 [[1%Z; 2%Z]; [2%Z; 1%Z]] 1%Z) (mkRng (tape rng0) 3) 1%Z)).
    exists [(0, 1); (1, 1); (1, 0)].
    split; [simpl; lia|]. split; [exact P|]. by repeat split.
Defined.

(** [random_policy_terminates] on the empty 2 x 2 board, with its four
    empty cells as fuel. *)
Lemma random_policy_terminates_witness :
  exists s' g' r,
    random_policy (G := GoState.ops go2) 4 rng0 go2 = Ok (s', g', r) /\ go_reachable s'.
Proof.
  destruct (go_state_progress go2) as (H1 & H2 & H3).
  apply (random_policy_terminates (G := GoState.ops go2) go_reachable go_empty_count
           H1 H2 H3 4 rng0 go2).
  - apply go_reach_init.
  - vm_compute. lia.
Defined.

(** [backpropagate_effect] from the child of [unvisited_heap]. *)
Lemma backpropagate_effect_witness :
  exists h',
    _backpropagate (G := GoState.ops go2) (length unvisited_heap) unvisited_heap (Some 1) 1%Z
      = Ok h' /\
    length h' = length unvisited_heap /\
    1 ∈ ancestors (length unvisited_heap) unvisited_heap 1 /\
    0 ∈ ancestors (length unvisited_heap) unvisited_heap 1 /\
    forall i nd, unvisited_heap !! i = Some nd ->
      exists nd',
        h' !! i = Some nd' /\
        state nd' = state nd /\ parent nd' = parent nd /\ children nd' = children nd /\
        visits nd' =
          visits nd
          + (if decide (i ∈ ancestors (length unvisited_heap) unvisited_heap 1) then 1 else 0) /\
        wins nd' =
          wins nd
          + (if decide (i ∈ ancestors (length unvisited_heap) unvisited_heap 1)
             then if player_eqb (GameOps := GoState.ops go2)
                       (gs_current_player (GameOps := GoState.ops go2) (state nd)) 1%Z
                  then 1 else 0
             else 0).
Proof.
  apply (backpropagate_effect (G := GoState.ops go2) unvisited_heap 1 1%Z unvisited_heap_wf).
  simpl. lia.
Defined.

(** [select_stops_at_frontier] on the root alone. *)
Lemma select_stops_at_frontier_witness :
  exists m,
    _select (G := GoState.ops go2) (FO := Binary64.ops) 1 (initial_heap go2) 0 = Ok m /\
    exists nd, initial_heap go2 !! m = Some nd /\
      (game_is_terminal (GameOps := GoState.ops go2) (state nd) = Ok true \/
       (game_is_terminal (GameOps := GoState.ops go2) (state nd) = Ok false /\
        is_fully_expanded (G := GoState.ops go2) (initial_heap go2) m = Ok false)).
Proof.
  eexists. split; [vm_compute; reflexivity|].
  eapply (select_stops_at_frontier (G := GoState.ops go2) (FO := Binary64.ops) 1
            (initial_heap go2) 0 0).
  vm_compute; reflexivity.
Defined.

(** [expand_plays_first_move] on the bundled game, at the root of
    [unvisited_heap], which has a child from [(0, 0)] already. *)
Lemma expand_plays_first_move_witness :
  _expand (G := GoGame.ops go2) unvisited_heap 0 =
    match [(0, 0); (0, 1); (1, 0); (1, 1)] with
    | [] => Ok (unvisited_heap, 0)
    | m :: _ =>
        let* s' := gs_play (GameOps := GoGame.ops go2) (state (mkNode go2 None [1] 0 0)) m in
        Ok (<[0 := add_child (length unvisited_heap) (mkNode go2 None [1] 0 0)]>
              (unvisited_heap ++ [Node_init s' (Some 0)]), length unvisited_heap)
    end.
Proof.
  apply (expand_plays_first_move (G := GoGame.ops go2) unvisited_heap 0
           (mkNode go2 None [1] 0 0) [(0, 0); (0, 1); (1, 0); (1, 1)]).
  - intros m s. reflexivity.
  - reflexivity.
  - intros c Hc. apply list_elem_of_singleton in Hc as ->. eexists. reflexivity.
  - reflexivity.
Defined.

(** [expand_keeps_nodes] for the first expansion of the root. *)
Lemma expand_keeps_nodes_witness :
  let h := initial_heap go2 in
  exists h1 n1,
    _expand (G := GoGame.ops go2) h 0 = Ok (h1, n1) /\
    (forall i nd, h !! i = Some nd ->
       exists nd1, h1 !! i = Some nd1 /\
         state nd1 = state nd /\ parent nd1 = parent nd /\
         wins nd1 = wins nd /\ visits nd1 = visits nd /\
         (children nd1 = children nd \/
          (i = 0 /\ n1 = length h /\ children nd1 = children nd ++ [length h]))) /\
    ((h1 = h /\ n1 = 0) \/
     (length h1 = S (length h) /\ n1 = length h /\
      exists s, h1 !! n1 = Some (mkNode s (Some 0) [] 0 0))).
Proof.
  eexists _, _. split; [vm_compute; reflexivity|].
  eapply (expand_keeps_nodes (G := GoGame.ops go2) (initial_heap go2) 0).
  vm_compute; reflexivity.
Defined.

(** [tree_stays_flat] after six iterations from the empty 2 x 2 board. *)
Lemma tree_stays_flat_witness :
  exists h g' tr,
    iterations (G := GoState.ops go2) (FO := Binary64.ops) 6 10 rng0 (initial_heap go2)
      = Ok (h, g', tr) /\
    flat_tree (H := GoState.ops go2) h.
Proof.
  eexists _, _, _. split; [vm_compute; reflexivity|].
  eapply (tree_stays_flat (G := GoState.ops go2) (FO := Binary64.ops) 10 6 rng0 go2).
  - intros s Hs. exact Hs.
  - vm_compute; reflexivity.
Defined.

(** [select_terminates] on the tree the first iteration leaves on the
    1 x 1 board: the root is fully expanded, the loop descends to its child
    and stops there. *)
Lemma select_terminates_witness :
  (wf first_iteration_heap /\
   (forall i (nd : Node GoGame.t), first_iteration_heap !! i = Some nd ->
      game_is_terminal (GameOps := GoState.ops go1) (state nd) <> OutOfFuel /\
      gs_get_legal_moves (GameOps := GoState.ops go1) (state nd) <> OutOfFuel) /\
   length first_iteration_heap <= 2 + 0) /\
  _select (G := GoState.ops go1) (FO := Binary64.ops) 2 first_iteration_heap 0 = Ok 1 /\
  _select (G := GoState.ops go1) (FO := Binary64.ops) 2 first_iteration_heap 0 <> OutOfFuel /\
  (forall m, _select (G := GoState.ops go1) (FO := Binary64.ops) 2 first_iteration_heap 0 = Ok m ->
     0 <= m < length first_iteration_heap) /\
  (forall fuel', length first_iteration_heap <= fuel' + 0 ->
     _select (G := GoState.ops go1) (FO := Binary64.ops) fuel' first_iteration_heap 0
     = _select (G := GoState.ops go1) (FO := Binary64.ops) 2 first_iteration_heap 0).
Proof.
  assert (W : wf first_iteration_heap).
  { apply (wf_after_iterations (H := GoState.ops go1) (H0 := Binary64.ops)
             10 1 rng0 go1 first_iteration_heap rng0 [1]).
    vm_compute; reflexivity. }
  assert (Hgame : forall i (nd : Node GoGame.t), first_iteration_heap !! i = Some nd ->
            game_is_terminal (GameOps := GoState.ops go1) (state nd) <> OutOfFuel /\
            gs_get_legal_moves (GameOps := GoState.ops go1) (state nd) <> OutOfFuel).
  { intros [|[|i]] nd E; [| |discriminate]; injection E as <-; split; discriminate. }
  split; [split; [exact W|split; [exact Hgame|simpl; lia]]|].
  split; [vm_compute; reflexivity|].
  apply (select_terminates (G := GoState.ops go1) (FO := Binary64.ops)
           first_iteration_heap W Hgame 2 0).
  simpl; lia.
Defined.
